(** * A shallow embedding of dvc's tree engine and experiment reference GC

    Sources embedded here:
    - [dvc/repo/experiments/gc.py]  : the experiment reference collector [gc];
    - [dvc/tree/base.py]            : [BaseTree], its hashing entry points
      ([get_hash], [get_dir_hash], [_collect_dir], [_iter_hashes]) and its
      transfer entry points ([download], [_download_dir], [_download_file]).

    Python objects become records, methods that a backend overrides become
    record fields, exceptions become the [Err] branch of [result], and the
    mutable world (file systems, caches, the git reference store) is passed
    explicitly. *)

From stdpp Require Import gmap strings list fin_maps sorting.
From Stdlib Require Import ZArith Lia.

Open Scope string_scope.
Open Scope list_scope.

(** ** Exceptions and results *)

(** Modelled from the spec: [PathInfo]/[URLInfo] of [dvc.path_info], the
    spec's Location, a backend-scoped path that decomposes into an ordered
    sequence of segments: [loc_scheme] is the backend identifier, [loc_parts]
    the segments. *)
Record Location := mkLoc { loc_scheme : string; loc_parts : list string }.

#[global] Instance Location_eq_dec : EqDecision Location.
Proof. solve_decision. Defined.

(** The exceptions raised by the embedded code. *)
Inductive exn :=
| NotImplementedError
| RemoteActionNotImplemented (action scheme : string)
| DvcIgnoreInCollectedDirError (parent : Location)
| AssertionError
| ValueError
| CancelledError
| AttributeError
| FileExistsError
| FileNotFoundError
| SCMError
| BackendError (msg : string).

#[global] Instance exn_eq_dec : EqDecision exn.
Proof. solve_decision. Defined.

Inductive result (A : Type) :=
| Ok (a : A)
| Err (e : exn).
Arguments Ok {A} a.
Arguments Err {A} e.

(** Python truthiness of an optional string: [None] and the empty string are falsy. *)
Definition str_truthy (s : string) : bool := negb (String.eqb s EmptyString).

Definition opt_truthy (o : option string) : bool :=
  match o with Some s => str_truthy s | None => false end.

(** ** dvc/repo/experiments/gc.py *)

(** Modelled from the spec: the versioned references kept by [repo.scm]
    ([dvc.scm] is not among the sources).  A reference is either direct (it
    holds a commit sha) or symbolic (it holds the name of another
    reference). *)
Inductive RefValue :=
| Sha (sha : string)
| SymRef (target : string).

#[global] Instance RefValue_eq_dec : EqDecision RefValue.
Proof. solve_decision. Defined.

(** Modelled from the spec: [ExpRefInfo] of [dvc.repo.experiments.refs], a
    versioned reference with its associated baseline revision.  [ref_name] is
    [str(ref_info)], the full reference name. *)
Record ExpRefInfo := mkExpRef { baseline_sha : string; ref_name : string }.

(** Modelled from the spec: a queued work entry, one commit of the
    experiment stash, with its baseline revision. *)
Record StashCommit := mkStashCommit { stash_rev : string; stash_baseline : string }.

(** Modelled from the spec: [ExpStashEntry], what [stash_revs] reports for
    a queued work entry. *)
Record ExpStashEntry := mkStashEntry { index : nat; baseline_rev : string }.

(** The part of [repo] that [gc] reads and writes.  [brancher] is
    [repo.brancher(all_branches, all_tags, all_commits, sha_only=True)],
    [scm_rev] is [repo.scm.get_rev()], [scm_refs] the git reference store and
    [exp_stash] the experiment stash, newest entry first. *)
Record Repo := mkRepo {
  brancher : bool -> bool -> bool -> list string;
  scm_rev : string;
  scm_refs : gmap string RefValue;
  exp_stash : list StashCommit;
}.

(** Modelled from the spec: the three "current execution" singleton
    pointers, [EXEC_BRANCH], [EXEC_APPLY] and [EXEC_CHECKPOINT] of
    [dvc.repo.experiments.base]. *)
Definition EXEC_BRANCH : string := "refs/exps/exec/EXEC_BRANCH".
Definition EXEC_APPLY : string := "refs/exps/exec/EXEC_APPLY".
Definition EXEC_CHECKPOINT : string := "refs/exps/exec/EXEC_CHECKPOINT".

(** Modelled from the spec: following a chain of symbolic references, at
    most [fuel] links deep. *)
Fixpoint resolve_ref (fuel : nat) (refs : gmap string RefValue) (name : string)
  : option string :=
  match refs !! name with
  | None => None
  | Some (Sha s) => Some s
  | Some (SymRef t) =>
      match fuel with
      | O => None
      | S fuel' => resolve_ref fuel' refs t
      end
  end.

(** Modelled from the spec: [scm.get_ref(name, follow)], what a pointer or
    reference points at: the sha a reference resolves to, or with
    [follow=False] the immediate content of the reference (the target name of
    a symbolic reference).  A missing or empty reference gives [None]. *)
Definition get_ref (refs : gmap string RefValue) (name : string) (follow : bool)
  : option string :=
  let ref :=
    if follow then resolve_ref 5 refs name
    else match refs !! name with
         | Some (Sha s) => Some s
         | Some (SymRef t) => Some t
         | None => None
         end in
  if opt_truthy ref then ref else None.

(** Modelled from the spec: [scm.remove_ref(name)], removing (clearing) a
    reference; removing an absent reference changes nothing. *)
Definition remove_ref (name : string) (refs : gmap string RefValue)
  : gmap string RefValue := delete name refs.

(** Modelled from the spec: [repo.experiments.stash_revs.items()], the
    queued work entries: one entry per stash commit, its [index] being the
    commit's position in the stash. *)
Definition stash_revs (stash : list StashCommit) : list ExpStashEntry :=
  imap (fun i c => mkStashEntry i (stash_baseline c)) stash.

(** Modelled from the spec: [repo.experiments.stash.drop(index)], removing
    one queued work entry; an index outside the stash is an error of the
    underlying git command. *)
Definition stash_drop (i : nat) (stash : list StashCommit)
  : result (list StashCommit) :=
  if decide (i < length stash)%nat then Ok (take i stash ++ drop (S i) stash)
  else Err SCMError.

(** [keep_revs], lines 21-30. *)
Definition keep_revs (repo : Repo)
    (all_branches all_tags all_commits workspace : bool) : gset string :=
  let revs : gset string :=
    list_to_set (brancher repo all_branches all_tags all_commits) in
  if workspace then revs ∪ {[ scm_rev repo ]} else revs.

(** The body of the loop over [exp_refs(repo.scm)], lines 41-50. *)
Definition gc_ref_step (keep : gset string)
    (exec_branch exec_apply exec_checkpoint : option string)
    (acc : gmap string RefValue * nat) (ref_info : ExpRefInfo)
  : gmap string RefValue * nat :=
  let '(refs, removed) := acc in
  if decide (baseline_sha ref_info ∈ keep) then acc
  else
    let ref := get_ref refs (ref_name ref_info) true in
    let refs :=
      if opt_truthy exec_branch && str_truthy (ref_name ref_info)
      then remove_ref EXEC_BRANCH refs else refs in
    let refs :=
      if opt_truthy exec_apply && bool_decide (exec_apply = ref)
      then remove_ref EXEC_APPLY refs else refs in
    let refs :=
      if opt_truthy exec_checkpoint && bool_decide (exec_checkpoint = ref)
      then remove_ref EXEC_CHECKPOINT refs else refs in
    (remove_ref (ref_name ref_info) refs, S removed).

(** [delete_stashes], lines 52-55. *)
Definition delete_stashes (keep : gset string) (queued : bool)
    (stash : list StashCommit) : list nat :=
  index <$> filter
    (fun entry => negb queued || negb (bool_decide (baseline_rev entry ∈ keep)) = true)
    (stash_revs stash).

(** [sorted(delete_stashes, reverse=True)]: descending order. *)
Definition desc (a b : nat) : Prop := (b <= a)%nat.

#[global] Instance desc_dec : RelDecision desc.
Proof. intros a b. unfold desc. apply _. Defined.

Definition sorted_reverse (l : list nat) : list nat := merge_sort desc l.

(** The loop of lines 56-57. *)
Fixpoint drop_all (indices : list nat) (stash : list StashCommit)
  : result (list StashCommit) :=
  match indices with
  | [] => Ok stash
  | i :: rest =>
      match stash_drop i stash with
      | Ok stash' => drop_all rest stash'
      | Err e => Err e
      end
  end.

Section GcDef.
(** [exp_refs(scm)] of [dvc.repo.experiments.utils]: the experiment
    references found in the reference store (the exec pointers and the stash
    reference are not among them). *)
Variable exp_refs : gmap string RefValue -> list ExpRefInfo.

(** [gc(repo, all_branches, all_tags, all_commits, workspace, queued)]:
    the number of removed items and the repository afterwards. *)
Definition gc (repo : Repo)
    (all_branches all_tags all_commits workspace queued : bool)
  : result (nat * Repo) :=
  let keep := keep_revs repo all_branches all_tags all_commits workspace in
  if decide (keep = ∅) then Ok (0, repo)
  else
    let refs0 := scm_refs repo in
    let exec_branch := get_ref refs0 EXEC_BRANCH false in
    let exec_apply := get_ref refs0 EXEC_APPLY true in
    let exec_checkpoint := get_ref refs0 EXEC_CHECKPOINT true in
    let '(refs, removed) :=
      foldl (gc_ref_step keep exec_branch exec_apply exec_checkpoint)
            (refs0, 0) (exp_refs refs0) in
    let dels := delete_stashes keep queued (exp_stash repo) in
    match drop_all (sorted_reverse dels) (exp_stash repo) with
    | Err e => Err e
    | Ok stash =>
        Ok (removed + length dels,
            mkRepo (brancher repo) (scm_rev repo) refs stash)
    end.
End GcDef.

(** The names [gc] treats as current-execution pointers. *)
Definition is_exec_pointer (name : string) : Prop :=
  name = EXEC_BRANCH ∨ name = EXEC_APPLY ∨ name = EXEC_CHECKPOINT.

(** What [gc] leaves in the stash: with [queued] unset nothing, with
    [queued] set the entries whose baseline is kept (the negation of the test
    of line 54). *)
Definition stash_kept (keep : gset string) (queued : bool) (c : StashCommit)
  : Prop := queued = true ∧ stash_baseline c ∈ keep.

#[global] Instance stash_kept_dec keep queued c :
  Decision (stash_kept keep queued c).
Proof. unfold stash_kept. apply _. Defined.

(** A concrete repository for the scenarios below: references [R1] (baseline
    "rev1") and [R2] (baseline "rev2"). *)
Definition R1 : string := "refs/exps/re/v1/exp-a".
Definition R2 : string := "refs/exps/re/v2/exp-b".

Definition demo_exp_refs (refs : gmap string RefValue) : list ExpRefInfo :=
  filter (fun ri => is_Some (refs !! ref_name ri))
         [mkExpRef "rev1" R1; mkExpRef "rev2" R2].

Definition demo_repo (pointers : list (string * RefValue))
    (stash : list StashCommit) : Repo :=
  mkRepo (fun all_branches _ _ => if all_branches then ["rev1"] else [])
         "rev1"
         (list_to_map (pointers ++ [(R1, Sha "c1"); (R2, Sha "c2")]))
         stash.

(** ** dvc/tree/base.py: the data model *)

(** Modelled from the spec: [path_info.name], the last segment. *)
Definition loc_name (p : Location) : string := List.last (loc_parts p) EmptyString.

(** Modelled from the spec: [path_info.parent]. *)
Definition loc_parent (p : Location) : Location :=
  mkLoc (loc_scheme p) (removelast (loc_parts p)).

(** Modelled from the spec: [path_info / segments]. *)
Definition loc_join (p : Location) (segs : list string) : Location :=
  mkLoc (loc_scheme p) (loc_parts p ++ segs).

Fixpoint strip_prefix (pre l : list string) : option (list string) :=
  match pre, l with
  | [], _ => Some l
  | a :: pre', b :: l' => if decide (a = b) then strip_prefix pre' l' else None
  | _ :: _, [] => None
  end.

(** Modelled from the spec: [fi.relative_to(root).parts], the path segments
    of [fi] relative to its ancestor [root]; Python raises [ValueError] where
    this is [None]: another backend, or a path that is not below [root]. *)
Definition relative_to (fi root : Location) : option (list string) :=
  if decide (loc_scheme fi = loc_scheme root)
  then strip_prefix (loc_parts root) (loc_parts fi)
  else None.

(** [s.endswith(suffix)]. *)
Definition endswith (s suffix : string) : bool :=
  let n := String.length s in
  let k := String.length suffix in
  (k <=? n)%nat && String.eqb (String.substring (n - k) k s) suffix.

(** Modelled from the spec: [HashInfo] of [dvc/hash_info.py], the spec's
    ContentHash [{algorithm, value, size}]; a hash is truthy when it has a
    non-empty value, and it is a directory hash when its value carries the
    reserved suffix. *)
Record HashInfo := mkHashInfo {
  hi_name : option string;
  hi_value : option string;
  hi_size : option Z;
}.

#[global] Instance HashInfo_eq_dec : EqDecision HashInfo.
Proof. solve_decision. Defined.

Definition CHECKSUM_DIR_SUFFIX : string := ".dir".

(** [BaseTree.is_dir_hash(hash_)]. *)
Definition is_dir_hash (hash_ : option string) : bool :=
  match hash_ with
  | Some v => if str_truthy v then endswith v CHECKSUM_DIR_SUFFIX else false
  | None => false
  end.

(** [bool(hash_info)] and [hash_info.isdir]. *)
Definition hi_truthy (h : HashInfo) : bool := opt_truthy (hi_value h).
Definition hi_isdir (h : HashInfo) : bool := is_dir_hash (hi_value h).

(** Truthiness of an optional [HashInfo] ([None] or a falsy hash). *)
Definition truthy_hash (o : option HashInfo) : option HashInfo :=
  match o with
  | Some h => if hi_truthy h then Some h else None
  | None => None
  end.

(** Modelled from the spec: [DirInfo] of [dvc.dir_info], the spec's
    Manifest, a mapping from relative path segments to hashes ([trie]). *)
Record DirInfo := mkDirInfo { trie : gmap (list string) HashInfo }.

(** Modelled from the spec: [DirInfo.size], the aggregate size, the sum of
    the member sizes; unknown as soon as one member size is unknown. *)
Definition dir_size (d : DirInfo) : option Z :=
  foldr (fun kv acc =>
           match hi_size kv.2, acc with
           | Some s, Some a => Some (s + a)%Z
           | _, _ => None
           end)
        (Some 0%Z) (map_to_list (trie d)).

(** Modelled from the spec: [DvcIgnore.DVCIGNORE_FILE], the designated
    ignore-marker filename. *)
Definition DVCIGNORE_FILE : string := ".dvcignore".

(** One entry of [ls(path_info, recursive=True, detail=True)]. *)
Record Details := mkDetails {
  d_name : list string;
  d_checksum : string;
  d_size : option Z;
}.

(** The local file system, as far as a download touches it: regular files
    with their content, and the set of directories. *)
Record LocalFS := mkLocalFS {
  fs_files : gmap (list string) (list Byte.byte);
  fs_dirs : gset (list string);
}.

(** The world the engine runs in: the local file system and [ext], everything
    else (the backend's storage, the fingerprint cache, the cache-store). *)
Record World (Ext : Type) := mkWorld { local_fs : LocalFS; ext : Ext }.
Arguments mkWorld {Ext} _ _.
Arguments local_fs {Ext} _.
Arguments ext {Ext} _.

(** What a backend's [_download(from_info, to_file)] does: the worlds an
    observer can see while it writes ([dl_partial], in order), the world when
    it returns and whether it raised. *)
Record DownloadRun (Ext : Type) := mkDownloadRun {
  dl_partial : list (World Ext);
  dl_final : World Ext;
  dl_result : result unit;
}.
Arguments mkDownloadRun {Ext} _ _ _.
Arguments dl_partial {Ext} _.
Arguments dl_final {Ext} _.
Arguments dl_result {Ext} _.

(** Modelled from the spec: [tree.state], the fingerprint cache with its
    [lookup] ([state_get]) and [store] ([state_save]) and the scoped
    acquisition around a hashing call ([state_enter], [state_exit]).
    [StateNoop] is the instance whose [state_get] is always [None] and whose
    other members do nothing. *)
Record State (Ext : Type) := mkState {
  state_enter : World Ext -> World Ext;
  state_exit : World Ext -> World Ext;
  state_get : Location -> World Ext -> option HashInfo;
  state_save : Location -> HashInfo -> World Ext -> World Ext;
}.
Arguments mkState {Ext} _ _ _ _.
Arguments state_enter {Ext} _ _.
Arguments state_exit {Ext} _ _.
Arguments state_get {Ext} _ _ _.
Arguments state_save {Ext} _ _ _ _.

(** [BaseTree]: the class attributes, the methods a backend overrides and the
    collaborators reached through [self] ([self.state], [self.cache],
    [self.repo.cache.local]).  [_download] is optional ([hasattr]).  The
    cache-store's [save_dir_info] takes the manifest and returns its hash; it
    is the only collaborator of the hashing engine that writes.  The reading
    primitives ([exists_], [isdir], [walk_files], [ls], [get_file_hash]) are
    total: an I/O error inside one of them is outside this model. *)
Record BaseTree (Ext : Type) := mkBaseTree {
  scheme : string;
  PARAM_CHECKSUM : option string;
  DETAIL_FIELDS : list string;
  jobs : nat;
  exists_ : Location -> World Ext -> bool;
  isdir : Location -> World Ext -> bool;
  walk_files : Location -> World Ext -> list Location;
  ls : Location -> World Ext -> list Details;
  get_file_hash : Location -> World Ext -> HashInfo;
  copy : Location -> Location -> World Ext -> result unit * World Ext;
  _download : option (Location -> list string -> World Ext -> DownloadRun Ext);
  state : State Ext;
  cache_tree_path_info : Location;
  cache_tree_exists : Location -> World Ext -> bool;
  cache_set_dir_info : HashInfo -> World Ext -> World Ext;
  save_dir_info : DirInfo -> World Ext -> HashInfo * World Ext;
}.
Arguments mkBaseTree {Ext}.
Arguments scheme {Ext} _.
Arguments PARAM_CHECKSUM {Ext} _.
Arguments DETAIL_FIELDS {Ext} _.
Arguments jobs {Ext} _.
Arguments exists_ {Ext} _ _ _.
Arguments isdir {Ext} _ _ _.
Arguments walk_files {Ext} _ _ _.
Arguments ls {Ext} _ _ _.
Arguments get_file_hash {Ext} _ _ _.
Arguments copy {Ext} _ _ _ _.
Arguments _download {Ext} _.
Arguments state {Ext} _.
Arguments cache_tree_path_info {Ext} _.
Arguments cache_tree_exists {Ext} _ _ _.
Arguments cache_set_dir_info {Ext} _ _ _.
Arguments save_dir_info {Ext} _ _ _.

(** ** dvc/tree/base.py: hashing *)

(** The [use_state] decorator: [with tree.state: return call()]. *)
Definition use_state {Ext A} (self : BaseTree Ext)
    (call : World Ext -> A * World Ext) (w : World Ext) : A * World Ext :=
  let '(r, w') := call (state_enter (state self) w) in
  (r, state_exit (state self) w').

(** [hash_to_path_info(hash_)]: [path_info / hash_[0:2] / hash_[2:]]. *)
Definition hash_to_path_info (path_info : Location) (hash_ : string) : Location :=
  loc_join path_info
    [String.substring 0 2 hash_; String.substring 2 (String.length hash_ - 2) hash_].

(** Python's [d[k] = v] on a dict kept in insertion order. *)
Fixpoint dict_set {K V} `{EqDecision K} (k : K) (v : V) (d : list (K * V))
  : list (K * V) :=
  match d with
  | [] => [(k, v)]
  | (k', v') :: d' =>
      if decide (k = k') then (k', v) :: d' else (k', v') :: dict_set k v d'
  end.

(** [dict(pairs).items()]. *)
Definition py_dict {K V} `{EqDecision K} (pairs : list (K * V)) : list (K * V) :=
  foldl (fun d kv => dict_set kv.1 kv.2 d) [] pairs.

(** [_calculate_hashes(file_infos).items()]: [executor.map] returns the
    hashes in the order of [file_infos], whatever the workers' timing. *)
Definition _calculate_hashes {Ext} (self : BaseTree Ext)
    (file_infos : list Location) (w : World Ext) : list (Location * HashInfo) :=
  py_dict (zip file_infos ((fun fi => get_file_hash self fi w) <$> file_infos)).

(** [PARAM_CHECKSUM in DETAIL_FIELDS]. *)
Definition checksum_in_details {Ext} (self : BaseTree Ext) : bool :=
  match PARAM_CHECKSUM self with
  | Some c => bool_decide (c ∈ DETAIL_FIELDS self)
  | None => false
  end.

(** The loop of [_iter_hashes], lines 318-326: the pairs it yields on the
    way, and [file_infos], the files left to hash. *)
Fixpoint walk_cached {Ext} (self : BaseTree Ext) (files : list Location)
    (w : World Ext) : list (Location * HashInfo) * list Location :=
  match files with
  | [] => ([], [])
  | file_info :: rest =>
      let '(yielded, file_infos) := walk_cached self rest w in
      match truthy_hash (state_get (state self) file_info w) with
      | None => (yielded, file_info :: file_infos)
      | Some hash_info => ((file_info, hash_info) :: yielded, file_infos)
      end
  end.

(** [_iter_hashes(path_info)]: everything the generator yields, in order. *)
Definition _iter_hashes {Ext} (self : BaseTree Ext) (path_info : Location)
    (w : World Ext) : list (Location * HashInfo) :=
  if checksum_in_details self then
    (fun details =>
       (mkLoc (loc_scheme path_info) (d_name details),
        mkHashInfo (PARAM_CHECKSUM self) (Some (d_checksum details))
                   (d_size details)))
      <$> ls self path_info w
  else
    let '(yielded, file_infos) :=
      walk_cached self (walk_files self path_info w) w in
    yielded ++ _calculate_hashes self file_infos w.

(** The loop of [_collect_dir], lines 332-344. *)
Fixpoint collect_loop (path_info : Location)
    (pairs : list (Location * HashInfo)) (dir_info : DirInfo) : result DirInfo :=
  match pairs with
  | [] => Ok dir_info
  | (fi, hi) :: rest =>
      if decide (DVCIGNORE_FILE = loc_name fi)
      then Err (DvcIgnoreInCollectedDirError (loc_parent fi))
      else
        match relative_to fi path_info with
        | None => Err ValueError
        | Some parts =>
            collect_loop path_info rest (mkDirInfo (<[parts := hi]> (trie dir_info)))
        end
  end.

Definition _collect_dir {Ext} (self : BaseTree Ext) (path_info : Location)
    (w : World Ext) : result DirInfo :=
  collect_loop path_info (_iter_hashes self path_info w) (mkDirInfo ∅).

(** [get_dir_hash(path_info)]. *)
Definition get_dir_hash {Ext} (self : BaseTree Ext) (path_info : Location)
  : World Ext -> result HashInfo * World Ext :=
  use_state self (fun w =>
    match _collect_dir self path_info w with
    | Err e => (Err e, w)
    | Ok dir_info =>
        let '(hash_info, w') := save_dir_info self dir_info w in
        (Ok (mkHashInfo (hi_name hash_info) (hi_value hash_info) (dir_size dir_info)),
         w')
    end).

(** Lines 258-270 of [get_hash]: the fingerprint-cache entry, dropped when
    it is a directory hash whose manifest the cache no longer holds. *)
Definition cached_hash {Ext} (self : BaseTree Ext) (path_info : Location)
    (w : World Ext) : option HashInfo :=
  let hash_info := state_get (state self) path_info w in
  match truthy_hash hash_info with
  | Some h =>
      if hi_isdir h
         && negb (cache_tree_exists self
                    (hash_to_path_info (cache_tree_path_info self)
                                       (default EmptyString (hi_value h))) w)
      then None else hash_info
  | None => hash_info
  end.

(** Lines 278-281 of [get_hash]: the directory or the file hash. *)
Definition compute_hash {Ext} (self : BaseTree Ext) (path_info : Location)
    (w : World Ext) : result HashInfo * World Ext :=
  if isdir self path_info w then get_dir_hash self path_info w
  else (Ok (get_file_hash self path_info w), w).

(** Lines 278-286 of [get_hash]: compute, then save the result in the
    fingerprint cache if the location is still there.  [meanwhile] is what the
    rest of the system did to the world while the hash was computed. *)
Definition get_hash_compute {Ext} (self : BaseTree Ext)
    (meanwhile : World Ext -> World Ext) (path_info : Location) (w : World Ext)
  : result (option HashInfo) * World Ext :=
  let '(r, w1) := compute_hash self path_info w in
  match r with
  | Err e => (Err e, w1)
  | Ok hash_info =>
      let w2 := meanwhile w1 in
      (Ok (Some hash_info),
       if hi_truthy hash_info && exists_ self path_info w2
       then state_save (state self) path_info hash_info w2
       else w2)
  end.

(** [get_hash(path_info)]. *)
Definition get_hash {Ext} (self : BaseTree Ext)
    (meanwhile : World Ext -> World Ext) (path_info : Location)
  : World Ext -> result (option HashInfo) * World Ext :=
  use_state self (fun w =>
    if negb (bool_decide (loc_scheme path_info = scheme self))
    then (Err AssertionError, w)
    else if negb (exists_ self path_info w) then (Ok None, w)
    else
      match truthy_hash (cached_hash self path_info w) with
      | Some hash_info =>
          if bool_decide (hi_name hash_info = PARAM_CHECKSUM self)
          then (Ok (Some hash_info),
                if hi_isdir hash_info
                then cache_set_dir_info self hash_info w else w)
          else (Err AssertionError, w)
      | None => get_hash_compute self meanwhile path_info w
      end).

(** The same tree over a directory whose members are enumerated in another
    order: [walk_files] and [ls] are replaced, all else is [self]. *)
Definition with_enumeration {Ext} (self : BaseTree Ext)
    (walk_files' : Location -> World Ext -> list Location)
    (ls' : Location -> World Ext -> list Details) : BaseTree Ext :=
  mkBaseTree (scheme self) (PARAM_CHECKSUM self) (DETAIL_FIELDS self)
    (jobs self) (exists_ self) (isdir self) walk_files' ls'
    (get_file_hash self) (copy self) (_download self) (state self)
    (cache_tree_path_info self) (cache_tree_exists self)
    (cache_set_dir_info self) (save_dir_info self).

(** The member files [_collect_dir] sees, in the order it sees them. *)
Definition members {Ext} (self : BaseTree Ext) (path_info : Location)
    (w : World Ext) : list Location := (_iter_hashes self path_info w).*1.

(** No member of the directory is named like the ignore marker, whichever
    way the backend enumerates the directory. *)
Definition no_ignore_marker {Ext} (self : BaseTree Ext) (path_info : Location)
    (w : World Ext) : Prop :=
  Forall (fun fi => loc_name fi ≠ DVCIGNORE_FILE) (walk_files self path_info w)
  ∧ Forall (fun d => List.last (d_name d) EmptyString ≠ DVCIGNORE_FILE) (ls self path_info w).

(** The enumeration lists every member file once. *)
Definition distinct_members {Ext} (self : BaseTree Ext) (path_info : Location)
    (w : World Ext) : Prop :=
  NoDup (walk_files self path_info w) ∧ NoDup (d_name <$> ls self path_info w).

(** The manifest entry of a yielded pair, when the member lies below the root. *)
Definition manifest_entry (root : Location) (p : Location * HashInfo)
  : option (list string * HashInfo) :=
  (fun parts => (parts, p.2)) <$> relative_to p.1 root.

(** A yielded pair whose file is not named like the ignore marker. *)
Definition unmarked (p : Location * HashInfo) : Prop :=
  loc_name p.1 ≠ DVCIGNORE_FILE.

(** What the walking strategy of [_iter_hashes] yields for a file list
    without duplicates: the cached pairs, then the computed ones. *)
Definition walk_pairs {Ext} (self : BaseTree Ext) (w : World Ext)
    (files : list Location) : list (Location * HashInfo) :=
  omap (fun fi => (fun h => (fi, h)) <$> truthy_hash (state_get (state self) fi w))
       files
  ++ ((fun fi => (fi, get_file_hash self fi w))
        <$> filter (fun fi => truthy_hash (state_get (state self) fi w) = None) files).

(** ** dvc/tree/base.py: transfer *)

(** Modelled from the spec: [tmp_fname(fname)] of [dvc.utils], the temporary
    location adjacent to the destination: the destination's own name with a
    random suffix, [fspath(fname) + "." + uuid() + ".tmp"]. *)
Definition tmp_fname (uuid : string) (fname : list string) : list string :=
  removelast fname
  ++ [String.append (List.last fname EmptyString)
        (String.append "." (String.append uuid ".tmp"))].

(** [a], [a; b], [a; b; c], ...: a directory path and all its ancestors. *)
Fixpoint ancestors (path : list string) : list (list string) :=
  match path with
  | [] => []
  | seg :: rest => [seg] :: (cons seg <$> ancestors rest)
  end.

(** Modelled from the spec: [makedirs(path, exist_ok=True)] of
    [dvc.utils.fs]: creates the directory and its missing ancestors, and
    fails when a regular file is in the way.  It writes no regular file. *)
Definition makedirs (path : list string) (fs : LocalFS) : result LocalFS :=
  if bool_decide (Exists (fun d => is_Some (fs_files fs !! d)) (ancestors path))
  then Err FileExistsError
  else Ok (mkLocalFS (fs_files fs) (fs_dirs fs ∪ list_to_set (ancestors path))).

(** Modelled from the spec: [move(src, dst)] of [dvc.utils.fs], the atomic
    rename into place: in one step [dst] holds what [src] held, and [src] is
    gone. *)
Definition move (src dst : list string) (fs : LocalFS) : result LocalFS :=
  match fs_files fs !! src with
  | None => Err FileNotFoundError
  | Some data =>
      Ok (mkLocalFS (<[dst := data]> (delete src (fs_files fs))) (fs_dirs fs))
  end.

(** [_download_file(from_info, to_info, name, no_progress_bar)]; [name] and
    [no_progress_bar] only reach the progress display.  The result lists the
    worlds an observer can see before the call returns, then the world and
    the result at return. *)
Definition _download_file {Ext} (self : BaseTree Ext) (uuid : string)
    (from_info to_info : Location) (w : World Ext) : DownloadRun Ext :=
  match makedirs (loc_parts (loc_parent to_info)) (local_fs w) with
  | Err e => mkDownloadRun [] w (Err e)
  | Ok fs1 =>
      let w1 := mkWorld fs1 (ext w) in
      let tmp_file := tmp_fname uuid (loc_parts to_info) in
      match _download self with
      | None => mkDownloadRun [w1] w1 (Err AttributeError)
      | Some backend_download =>
          let run := backend_download from_info tmp_file w1 in
          let w2 := dl_final run in
          match dl_result run with
          | Err e => mkDownloadRun (w1 :: dl_partial run) w2 (Err e)
          | Ok _ =>
              match move tmp_file (loc_parts to_info) (local_fs w2) with
              | Err e => mkDownloadRun (w1 :: dl_partial run ++ [w2]) w2 (Err e)
              | Ok fs3 =>
                  mkDownloadRun (w1 :: dl_partial run ++ [w2])
                                (mkWorld fs3 (ext w2)) (Ok tt)
              end
          end
      end
  end.

(** *** The worker pool of [_download_dir]

    [ThreadPoolExecutor], [Future] and [as_completed] of Python's
    [concurrent.futures], as [_download_dir] uses them: workers take the
    submitted futures in submission order, at most [max_workers] run at a
    time, [cancel] only takes a pending future, [as_completed] yields the
    futures that are done in any order, and leaving the [with] block waits
    until no future is pending or running.  A transfer takes effect on the
    world when its worker finishes.  A run of the pool is a sequence of events
    chosen by the scheduler; [pool_step] says what an event does and whether
    it can happen. *)

Inductive FutureState :=
| Pending
| Running
| Finished (r : result unit)
| Cancelled.

#[global] Instance result_unit_eq_dec : EqDecision (result unit).
Proof. solve_decision. Defined.

#[global] Instance FutureState_eq_dec : EqDecision FutureState.
Proof. solve_decision. Defined.

(** Where the calling thread is: in the list comprehension of lines 434-437
    ([Submitting k]: [k] futures submitted), in the [as_completed] loop
    ([Collecting]), in the loop of lines 450-451 ([Cancelling exc k]: [k]
    futures visited), leaving the [with] block of the executor
    ([ShuttingDown]: [shutdown(wait=True)]), or back in the caller. *)
Inductive MainState :=
| Submitting (k : nat)
| Collecting
| Cancelling (exc : exn) (k : nat)
| ShuttingDown (r : result unit)
| Returned (r : result unit).

Inductive Event :=
| MainStep
| Yield (i : nat)
| WorkerStart (i : nat)
| WorkerFinish (i : nat).

Record Pool (Ext : Type) := mkPool {
  world : World Ext;
  futures : list FutureState;
  yielded : list nat;
  main : MainState;
}.
Arguments mkPool {Ext} _ _ _ _.
Arguments world {Ext} _.
Arguments futures {Ext} _.
Arguments yielded {Ext} _.
Arguments main {Ext} _.

(** [future.cancel()]: only a pending future is cancelled. *)
Definition cancel (f : FutureState) : FutureState :=
  match f with Pending => Cancelled | _ => f end.

Definition is_running (f : FutureState) : bool :=
  match f with Running => true | _ => false end.

Definition is_pending (f : FutureState) : bool :=
  match f with Pending => true | _ => false end.

(** A future the executor still has to deal with. *)
Definition is_unfinished (f : FutureState) : bool := is_pending f || is_running f.

Section DownloadDir.
Context {Ext : Type} (self : BaseTree Ext).
(** [uuids i]: the random part of the temporary name of member [i]. *)
Variable uuids : nat -> string.
Variables from_info to_info : Location.
(** [from_infos], line 418, and [max_workers], line 432. *)
Variable from_infos : list Location.
Variable max_workers : nat.

(** The destination of a member, lines 419-421. *)
Definition member_to_info (info : Location) : option Location :=
  loc_join to_info <$> relative_to info from_info.

Definition pool_step (ev : Event) (st : Pool Ext) : option (Pool Ext) :=
  let fs := futures st in
  match ev, main st with
  | MainStep, Submitting k =>
      match from_infos !! k with
      | None => Some (mkPool (world st) fs (yielded st) Collecting)
      | Some info =>
          match member_to_info info with
          | None =>
              Some (mkPool (world st) fs (yielded st)
                           (ShuttingDown (Err ValueError)))
          | Some _ =>
              Some (mkPool (world st) (fs ++ [Pending]) (yielded st)
                           (Submitting (S k)))
          end
      end
  | MainStep, Collecting =>
      if forallb (fun i => bool_decide (i ∈ yielded st)) (seq 0 (length fs))
      then Some (mkPool (world st) fs (yielded st) (ShuttingDown (Ok tt)))
      else None
  | Yield i, Collecting =>
      if bool_decide (i ∈ yielded st) then None
      else
        match fs !! i with
        | Some (Finished (Ok _)) =>
            Some (mkPool (world st) fs (i :: yielded st) Collecting)
        | Some (Finished (Err exc)) =>
            Some (mkPool (world st) fs (i :: yielded st) (Cancelling exc 0))
        | Some Cancelled =>
            Some (mkPool (world st) fs (i :: yielded st)
                         (ShuttingDown (Err CancelledError)))
        | _ => None
        end
  | MainStep, Cancelling exc k =>
      match fs !! k with
      | Some entry =>
          Some (mkPool (world st) (<[k := cancel entry]> fs) (yielded st)
                       (Cancelling exc (S k)))
      | None =>
          Some (mkPool (world st) fs (yielded st) (ShuttingDown (Err exc)))
      end
  | MainStep, ShuttingDown r =>
      if existsb is_unfinished fs then None
      else Some (mkPool (world st) fs (yielded st) (Returned r))
  | WorkerStart i, _ =>
      match fs !! i with
      | Some Pending =>
          if existsb is_pending (take i fs) then None
          else if decide (length (filter (fun f => is_running f = true) fs)
                          < max_workers)%nat
          then Some (mkPool (world st) (<[i := Running]> fs) (yielded st)
                            (main st))
          else None
      | _ => None
      end
  | WorkerFinish i, _ =>
      match fs !! i, from_infos !! i with
      | Some Running, Some info =>
          match member_to_info info with
          | Some to_i =>
              let run := _download_file self (uuids i) info to_i (world st) in
              Some (mkPool (dl_final run) (<[i := Finished (dl_result run)]> fs)
                           (yielded st) (main st))
          | None => None
          end
      | _, _ => None
      end
  | _, _ => None
  end.

(** A run: the events of a schedule, one after the other. *)
Fixpoint pool_run (sched : list Event) (st : Pool Ext) : option (Pool Ext) :=
  match sched with
  | [] => Some st
  | ev :: rest =>
      match pool_step ev st with
      | Some st' => pool_run rest st'
      | None => None
      end
  end.

(** [ThreadPoolExecutor(max_workers=0)] raises [ValueError]. *)
Definition pool_init (w : World Ext) : Pool Ext :=
  mkPool w [] []
    (if decide (max_workers = 0)%nat then Returned (Err ValueError)
     else Submitting 0).
End DownloadDir.

(** [max_workers], line 432: [jobs or self.jobs]. *)
Definition max_workers_of {Ext} (self : BaseTree Ext) (jobs_ : option nat) : nat :=
  match jobs_ with
  | Some (S j) => S j
  | _ => jobs self
  end.

(** [_download_dir(from_info, to_info, name, no_progress_bar, jobs)] under
    the schedule [sched]: the result and the world when the call returns;
    [None] when [sched] stops before the call returns or is no run of the
    pool. *)
Definition _download_dir {Ext} (self : BaseTree Ext) (uuids : nat -> string)
    (from_info to_info : Location) (jobs_ : option nat) (sched : list Event)
    (w : World Ext) : option (result unit * World Ext) :=
  let from_infos := walk_files self from_info w in
  let max_workers := max_workers_of self jobs_ in
  match pool_run self uuids from_info to_info from_infos max_workers sched
                 (pool_init max_workers w) with
  | Some st =>
      match main st with
      | Returned r => Some (r, world st)
      | _ => None
      end
  | None => None
  end.

(** [download(from_info, to_info, name, no_progress_bar, jobs)]: [Ok (Some 0)]
    is [return 0], [Ok None] the [None] the two transfer helpers return. *)
Definition download {Ext} (self : BaseTree Ext) (uuids : nat -> string)
    (from_info to_info : Location) (jobs_ : option nat) (sched : list Event)
    (w : World Ext) : option (result (option Z) * World Ext) :=
  match _download self with
  | None => Some (Err (RemoteActionNotImplemented "download" (scheme self)), w)
  | Some _ =>
      if negb (bool_decide (loc_scheme from_info = scheme self))
      then Some (Err NotImplementedError, w)
      else if bool_decide (loc_scheme to_info = scheme self)
              && negb (bool_decide (scheme self = "local"))
      then
        let '(r, w') := copy self from_info to_info w in
        match r with
        | Ok _ => Some (Ok (Some 0%Z), w')
        | Err e => Some (Err e, w')
        end
      else if negb (bool_decide (loc_scheme to_info = "local"))
      then Some (Err NotImplementedError, w)
      else if isdir self from_info w
      then
        match _download_dir self uuids from_info to_info jobs_ sched w with
        | Some (Ok _, w') => Some (Ok None, w')
        | Some (Err e, w') => Some (Err e, w')
        | None => None
        end
      else
        let run := _download_file self (uuids 0%nat) from_info to_info w in
        match dl_result run with
        | Ok _ => Some (Ok None, dl_final run)
        | Err e => Some (Err e, dl_final run)
        end
  end.

(** A backend's [_download] that writes nothing but the file it is told to
    write: in every world seen while it runs and in the one it returns,
    every other local file is as it was. *)
Definition writes_only {Ext} (run : DownloadRun Ext) (w : World Ext)
    (target : list string) : Prop :=
  Forall (fun s => ∀ p, p ≠ target →
                   fs_files (local_fs s) !! p = fs_files (local_fs w) !! p)
         (dl_partial run ++ [dl_final run]).

Definition backend_writes_only_target {Ext}
    (backend_download : Location -> list string -> World Ext -> DownloadRun Ext)
  : Prop :=
  ∀ from_info target w, writes_only (backend_download from_info target w) w target.

(** What the local file system holds at a path. *)
Definition file_at {Ext} (w : World Ext) (p : list string)
  : option (list Byte.byte) := fs_files (local_fs w) !! p.

(** *** What a run of the pool is checked against *)

(** Every future [as_completed] has yielded so far finished without error. *)
Definition settled_ok (fs : list FutureState) (ys : list nat) : Prop :=
  ∀ j, j ∈ ys → fs !! j = Some (Finished (Ok tt)).

(** [exc] is the error of the future yielded last, and every future yielded
    before it finished without error: [exc] is the first error observed. *)
Definition failed_first (fs : list FutureState) (ys : list nat) (exc : exn)
  : Prop :=
  ∃ i ys', ys = i :: ys' ∧ fs !! i = Some (Finished (Err exc)) ∧ settled_ok fs ys'.

Definition none_pending_below (k : nat) (fs : list FutureState) : Prop :=
  ∀ j, (j < k)%nat → fs !! j ≠ Some Pending.

Definition none_cancelled (fs : list FutureState) : Prop :=
  ∀ j, fs !! j ≠ Some Cancelled.

(** Every one of the [n] member transfers completed successfully. *)
Definition all_succeeded (n : nat) (fs : list FutureState) : Prop :=
  ∀ j, (j < n)%nat → fs !! j = Some (Finished (Ok tt)).

(** Every one of the [n] futures is finished or cancelled. *)
Definition all_settled (n : nat) (fs : list FutureState) : Prop :=
  ∀ j, (j < n)%nat → ∃ f, fs !! j = Some f ∧ is_unfinished f = false.

(** A future a worker has taken up: it is running or has finished. *)
Definition started (fs : list FutureState) (i : nat) : Prop :=
  fs !! i = Some Running ∨ ∃ r, fs !! i = Some (Finished r).

(** The invariant of the pool, for a directory of [n] members. *)
Definition pool_inv {Ext} (n : nat) (st : Pool Ext) : Prop :=
  let fs := futures st in
  let ys := yielded st in
  match main st with
  | Submitting k =>
      length fs = k ∧ (k <= n)%nat ∧ ys = [] ∧ none_cancelled fs
  | Collecting =>
      length fs = n ∧ settled_ok fs ys ∧ none_cancelled fs
  | Cancelling exc k =>
      length fs = n ∧ failed_first fs ys exc ∧ none_pending_below k fs
  | ShuttingDown (Ok _) =>
      length fs = n ∧ all_succeeded n fs
  | ShuttingDown (Err exc) =>
      length fs = n ∧ failed_first fs ys exc ∧ none_pending_below n fs
  | Returned (Ok _) =>
      length fs = n ∧ all_succeeded n fs
  | Returned (Err exc) =>
      length fs = n ∧ failed_first fs ys exc ∧ all_settled n fs
  end.

(** The work a future still stands for. *)
Definition future_weight (f : FutureState) : nat :=
  match f with Pending => 2 | Running => 1 | _ => 0 end.

Fixpoint futures_weight (fs : list FutureState) : nat :=
  match fs with
  | [] => 0
  | f :: fs' => future_weight f + futures_weight fs'
  end.

(** The members among the first [n] that [as_completed] has not yielded. *)
Definition unyielded (n : nat) (ys : list nat) : list nat :=
  filter (fun i => i ∉ ys) (seq 0 n).

(** A bound on the number of events a pool of [n] members can still take. *)
Definition pool_measure {Ext} (n : nat) (st : Pool Ext) : nat :=
  (match main st with
   | Submitting k => (n - k) + (2 * n + 4)
   | Collecting => length (unyielded n (yielded st)) + (n + 3)
   | Cancelling _ k => (n - k) + 2
   | ShuttingDown _ => 1
   | Returned _ => 0
   end
   + futures_weight (futures st)
   + 2 * (n - length (futures st)))%nat.

(** ** A small backend to run the model on

    Everything outside the local file system: the backend's files in the
    order the backend lists them, the files whose download breaks off, the
    fingerprint cache and the paths the cache-store holds. *)
Record DemoExt := mkDemoExt {
  remote_files : list (Location * string);
  broken : list Location;
  state_db : list (Location * HashInfo);
  cache_objects : list Location;
}.

Definition assoc {V} (k : Location) (l : list (Location * V)) : option V :=
  snd <$> List.find (fun kv => bool_decide (kv.1 = k)) l.

Definition demo_below (root fi : Location) : bool :=
  bool_decide (is_Some (relative_to fi root)).

Definition demo_strictly_below (root fi : Location) : bool :=
  match relative_to fi root with
  | Some (_ :: _) => true
  | _ => false
  end.

(** The backend's [_download]: writes the first byte, then either breaks off
    or writes the whole file. *)
Definition demo_download (from_info : Location) (target : list string)
    (w : World DemoExt) : DownloadRun DemoExt :=
  let put data :=
    mkWorld (mkLocalFS (<[target := data]> (fs_files (local_fs w)))
                       (fs_dirs (local_fs w)))
            (ext w) in
  match assoc from_info (remote_files (ext w)) with
  | None => mkDownloadRun [] w (Err FileNotFoundError)
  | Some content =>
      let data := String.list_byte_of_string content in
      if bool_decide (from_info ∈ broken (ext w))
      then mkDownloadRun [put (take 1 data)] (put (take 1 data))
                         (Err (BackendError "connection reset"))
      else mkDownloadRun [put (take 1 data)] (put data) (Ok tt)
  end.

Definition demo_state : State DemoExt :=
  mkState id id
    (fun path_info w => assoc path_info (state_db (ext w)))
    (fun path_info hash_info w =>
       mkWorld (local_fs w)
         (mkDemoExt (remote_files (ext w)) (broken (ext w))
                    ((path_info, hash_info) :: state_db (ext w))
                    (cache_objects (ext w)))).

Definition demo_cache_root : Location := mkLoc "local" ["cache"].

(** The cache-store's [save_dir_info]: the manifest's hash is its canonical
    text with the directory suffix, and the manifest is stored under it. *)
Definition demo_save_dir_info (dir_info : DirInfo) (w : World DemoExt)
  : HashInfo * World DemoExt :=
  let line kv :=
    String.append (String.concat "/" kv.1)
      (String.append "=" (default EmptyString (hi_value kv.2))) in
  let value :=
    String.append (String.concat ";" (line <$> map_to_list (trie dir_info)))
                  CHECKSUM_DIR_SUFFIX in
  (mkHashInfo (Some "md5") (Some value) None,
   mkWorld (local_fs w)
     (mkDemoExt (remote_files (ext w)) (broken (ext w)) (state_db (ext w))
                (hash_to_path_info demo_cache_root value
                   :: cache_objects (ext w)))).

(** The backend's [copy]: a server-side copy. *)
Definition demo_copy (from_info to_info : Location) (w : World DemoExt)
  : result unit * World DemoExt :=
  match assoc from_info (remote_files (ext w)) with
  | None => (Err FileNotFoundError, w)
  | Some content =>
      (Ok tt,
       mkWorld (local_fs w)
         (mkDemoExt (remote_files (ext w) ++ [(to_info, content)])
                    (broken (ext w)) (state_db (ext w))
                    (cache_objects (ext w))))
  end.

Definition demo_tree (has_download : bool) : BaseTree DemoExt :=
  mkBaseTree "demo" (Some "md5") [] 1
    (fun p w => existsb (fun kv => demo_below p kv.1) (remote_files (ext w)))
    (fun p w => existsb (fun kv => demo_strictly_below p kv.1)
                        (remote_files (ext w)))
    (fun p w => filter (fun fi => demo_below p fi = true)
                       (remote_files (ext w)).*1)
    (fun _ _ => [])
    (fun fi w => mkHashInfo (Some "md5") (assoc fi (remote_files (ext w))) None)
    demo_copy
    (if has_download then Some demo_download else None)
    demo_state
    demo_cache_root
    (fun p w => bool_decide (p ∈ cache_objects (ext w)))
    (fun _ w => w)
    demo_save_dir_info.

Definition demo_loc (segs : list string) : Location := mkLoc "demo" segs.
Definition local_loc (segs : list string) : Location := mkLoc "local" segs.

Definition empty_fs : LocalFS := mkLocalFS ∅ ∅.

(** A directory "data" with two files. *)
Definition demo_world : World DemoExt :=
  mkWorld empty_fs
    (mkDemoExt [(demo_loc ["data"; "a"], "alpha");
                (demo_loc ["data"; "b"], "beta")]
               [] [] []).

(** The same with a first file whose download breaks off. *)
Definition broken_world : World DemoExt :=
  mkWorld empty_fs
    (mkDemoExt [(demo_loc ["data"; "a"], "alpha");
                (demo_loc ["data"; "b"], "beta")]
               [demo_loc ["data"; "a"]] [] []).

(** A world in which the backend can copy a file named by a location of
    another scheme. *)
Definition foreign_world : World DemoExt :=
  mkWorld empty_fs
    (mkDemoExt [(mkLoc "other" ["data"; "a"], "alpha")] [] [] []).

(** One worker: the first transfer fails before the second has started. *)
Definition failing_schedule : list Event :=
  [MainStep; MainStep; MainStep; WorkerStart 0; WorkerFinish 0; Yield 0;
   MainStep; MainStep; MainStep; MainStep].

(** The same with an ignore marker at the top of the directory. *)
Definition marked_world : World DemoExt :=
  mkWorld empty_fs
    (mkDemoExt [(demo_loc ["data"; "a"], "alpha");
                (demo_loc ["data"; ".dvcignore"], "*.tmp")]
               [] [] []).

(** The fingerprint cache knows "data" as a directory, the cache-store has
    lost the manifest. *)
Definition stale_world : World DemoExt :=
  mkWorld empty_fs
    (mkDemoExt [(demo_loc ["data"; "a"], "alpha")]
               []
               [(demo_loc ["data"], mkHashInfo (Some "md5") (Some "0123abcd.dir") None)]
               []).

(** Somebody deletes all the backend's files. *)
Definition delete_everything (w : World DemoExt) : World DemoExt :=
  mkWorld (local_fs w)
    (mkDemoExt [] (broken (ext w)) (state_db (ext w)) (cache_objects (ext w))).

(** The experiment references of the concrete repository that sit on
    "rev1". *)
Definition demo_exp_refs_rev1 (refs : gmap string RefValue) : list ExpRefInfo :=
  filter (fun ri => baseline_sha ri = "rev1") (demo_exp_refs refs).

(** A reference that is no exec pointer and does not resolve, in the store
    [refs0], to the commit a pointer holds. *)
Definition misses (refs0 : gmap string RefValue) (pointer : option string)
    (ri : ExpRefInfo) : Prop :=
  ¬ is_exec_pointer (ref_name ri)
  ∧ ∀ s, pointer = Some s → get_ref refs0 (ref_name ri) true ≠ Some s.

#[global] Instance ExpRefInfo_eq_dec : EqDecision ExpRefInfo.
Proof. solve_decision. Defined.

(** The hash the walking strategy of [_iter_hashes] attributes to a file:
    the fingerprint cache's when it has a truthy one, [get_file_hash]'s
    otherwise. *)
Definition member_hash {Ext} (self : BaseTree Ext) (w : World Ext)
    (fi : Location) : HashInfo :=
  match truthy_hash (state_get (state self) fi w) with
  | Some cached => cached
  | None => get_file_hash self fi w
  end.

(** The futures a worker is running, as [pool_step] counts them. *)
Definition running_count (fs : list FutureState) : nat :=
  length (filter (fun f => is_running f = true) fs).


(** The members a schedule transfers, in the order their workers finish. *)
Definition transfers (sched : list Event) : list nat :=
  omap (fun ev => match ev with WorkerFinish i => Some i | _ => None end) sched.


(** No member's destination is the temporary file of a member. *)
Definition no_tmp_clash (uuids : nat -> string)
    (from_info to_info : Location) (from_infos : list Location) : Prop :=
  ∀ i j info_i info_j to_i to_j,
    from_infos !! i = Some info_i → from_infos !! j = Some info_j →
    member_to_info from_info to_info info_i = Some to_i →
    member_to_info from_info to_info info_j = Some to_j →
    loc_parts to_i ≠ tmp_fname (uuids j) (loc_parts to_j).

(** Two workers on the directory "data": both transfers run at the same
    time, the second finishes first. *)
Definition overlapping_schedule : list Event :=
  [MainStep; MainStep; WorkerStart 0; MainStep; WorkerStart 1; WorkerFinish 1;
   Yield 1; WorkerFinish 0; Yield 0; MainStep; MainStep].


(** * Theorems *)

(** ** The model on small inputs *)

Example endswith_dir_suffix :
  endswith "0123abcd.dir" CHECKSUM_DIR_SUFFIX = true
  ∧ endswith "0123abcd" CHECKSUM_DIR_SUFFIX = false
  ∧ endswith "dir" CHECKSUM_DIR_SUFFIX = false.
Proof. by vm_compute. Qed.

Example relative_to_examples :
  relative_to (mkLoc "s3" ["bucket"; "data"; "sub"; "f"]) (mkLoc "s3" ["bucket"; "data"])
  = Some ["sub"; "f"]
  ∧ relative_to (mkLoc "s3" ["bucket"; "other"]) (mkLoc "s3" ["bucket"; "data"])
    = None
  ∧ relative_to (mkLoc "gs" ["bucket"; "data"; "f"]) (mkLoc "s3" ["bucket"; "data"])
    = None.
Proof. by vm_compute. Qed.

Example hash_to_path_info_example :
  hash_to_path_info (mkLoc "local" ["cache"]) "0123abcd.dir"
  = mkLoc "local" ["cache"; "01"; "23abcd.dir"].
Proof. by vm_compute. Qed.

Example py_dict_example :
  py_dict [(1, "a"); (2, "b"); (1, "c")] = [(1, "c"); (2, "b")].
Proof. by vm_compute. Qed.

Example tmp_fname_example :
  tmp_fname "u1" ["out"; "a"] = ["out"; "a.u1.tmp"].
Proof. by vm_compute. Qed.

Example get_ref_examples :
  let refs : gmap string RefValue :=
    {[ EXEC_BRANCH := SymRef R1; R1 := Sha "c1" ]} in
  get_ref refs EXEC_BRANCH false = Some R1
  ∧ get_ref refs EXEC_BRANCH true = Some "c1"
  ∧ get_ref refs EXEC_APPLY true = None.
Proof. by vm_compute. Qed.


(** ** Reference GC: the loop over the experiment references *)

Section GcRefLoop.
Variable keep : gset string.
Variables exec_branch exec_apply exec_checkpoint : option string.

#[local] Abbreviation step :=
  (gc_ref_step keep exec_branch exec_apply exec_checkpoint).

Lemma gc_ref_step_absent refs n ri name :
  refs !! name = None → (step (refs, n) ri).1 !! name = None.
Proof.
  intros Hnone. unfold gc_ref_step, remove_ref.
  destruct (decide (baseline_sha ri ∈ keep)); [done|].
  cbn. apply lookup_delete_None. right.
  repeat case_match; rewrite ?lookup_delete_None; auto.
Qed.

Lemma gc_ref_step_removes refs n ri :
  baseline_sha ri ∉ keep → (step (refs, n) ri).1 !! ref_name ri = None.
Proof.
  intros Hout. unfold gc_ref_step, remove_ref.
  destruct (decide (baseline_sha ri ∈ keep)); [done|].
  cbn. apply lookup_delete_eq.
Qed.

Lemma gc_ref_step_other refs n ri name :
  ¬ is_exec_pointer name →
  (baseline_sha ri ∉ keep → ref_name ri ≠ name) →
  (step (refs, n) ri).1 !! name = refs !! name.
Proof.
  intros Hptr Hne. unfold gc_ref_step, remove_ref.
  destruct (decide (baseline_sha ri ∈ keep)); [done|].
  cbn. rewrite lookup_delete_ne by auto.
  unfold is_exec_pointer in Hptr.
  repeat case_match; rewrite ?lookup_delete_ne; auto.
Qed.

Lemma gc_ref_step_count refs n ri :
  (step (refs, n) ri).2
  = n + length (filter (fun r => baseline_sha r ∉ keep) [ri]).
Proof.
  unfold gc_ref_step. rewrite filter_cons, filter_nil.
  destruct (decide (baseline_sha ri ∈ keep)), (decide (baseline_sha ri ∉ keep));
    try done; cbn; lia.
Qed.

Lemma gc_loop_absent l refs n name :
  refs !! name = None → (foldl step (refs, n) l).1 !! name = None.
Proof.
  revert refs n. induction l as [|ri l IH]; intros refs n Hnone; [done|].
  cbn [foldl]. destruct (step (refs, n) ri) as [refs1 n1] eqn:E.
  apply IH. change refs1 with (refs1, n1).1. rewrite <- E.
  by apply gc_ref_step_absent.
Qed.

Lemma gc_loop_removes l refs n ri :
  ri ∈ l → baseline_sha ri ∉ keep →
  (foldl step (refs, n) l).1 !! ref_name ri = None.
Proof.
  revert refs n. induction l as [|r l IH]; intros refs n Hin Hout.
  - by apply elem_of_nil in Hin.
  - cbn [foldl]. destruct (step (refs, n) r) as [refs1 n1] eqn:E.
    apply elem_of_cons in Hin as [->|Hin].
    + apply gc_loop_absent. change refs1 with (refs1, n1).1. rewrite <- E.
      by apply gc_ref_step_removes.
    + by apply IH.
Qed.

Lemma gc_loop_other l refs n name :
  ¬ is_exec_pointer name →
  (∀ ri, ri ∈ l → baseline_sha ri ∉ keep → ref_name ri ≠ name) →
  (foldl step (refs, n) l).1 !! name = refs !! name.
Proof.
  intros Hptr. revert refs n.
  induction l as [|r l IH]; intros refs n Hne; [done|].
  cbn [foldl]. destruct (step (refs, n) r) as [refs1 n1] eqn:E.
  rewrite IH by (intros; apply Hne; [apply elem_of_cons; by right|done]).
  change refs1 with (refs1, n1).1. rewrite <- E.
  apply gc_ref_step_other; [done|]. apply Hne, elem_of_cons. by left.
Qed.

Lemma gc_loop_count l refs n :
  (foldl step (refs, n) l).2
  = n + length (filter (fun r => baseline_sha r ∉ keep) l).
Proof.
  revert refs n. induction l as [|r l IH]; intros refs n.
  - cbn. lia.
  - cbn [foldl]. destruct (step (refs, n) r) as [refs1 n1] eqn:E.
    rewrite IH. change n1 with (refs1, n1).2. rewrite <- E.
    rewrite gc_ref_step_count.
    change (r :: l) with ([r] ++ l). rewrite (filter_app _ [r] l), length_app. lia.
Qed.
End GcRefLoop.

(** ** Reference GC: the stash *)

Lemma Sorted_weaken {A} (R1 R2 : relation A) l :
  (∀ x y, R1 x y → R2 x y) → Sorted R1 l → Sorted R2 l.
Proof.
  intros Himp. induction 1 as [|x l Hs IH Hhd]; constructor; [done|].
  destruct Hhd; constructor; auto.
Qed.

Section GcStash.
Variable keep : gset string.
Variable queued : bool.

#[local] Abbreviation stash_kept := (stash_kept keep queued).

Lemma delete_stashes_snoc l c :
  delete_stashes keep queued (l ++ [c])
  = delete_stashes keep queued l
    ++ (if decide (stash_kept c) then [] else [length l]).
Proof.
  unfold delete_stashes, stash_revs.
  rewrite imap_app, filter_app, fmap_app. f_equal.
  cbn [imap]. rewrite filter_cons, filter_nil. cbn.
  rewrite Nat.add_0_r.
  unfold stash_kept.
  destruct queued; cbn.
  - destruct (decide (stash_baseline c ∈ keep)) as [Hin|Hout];
      [rewrite bool_decide_eq_true_2 by done
      |rewrite bool_decide_eq_false_2 by done];
      cbn; repeat case_decide; try done; tauto.
  - repeat case_decide; try done; unfold stash_kept in *; intuition congruence.
Qed.

Lemma delete_stashes_bound l :
  Forall (fun i => (i < length l)%nat) (delete_stashes keep queued l).
Proof.
  induction l as [|c l IH] using rev_ind; [constructor|].
  rewrite delete_stashes_snoc, length_app. cbn.
  apply Forall_app. split.
  - eapply Forall_impl; [exact IH|]. cbn. lia.
  - case_decide; repeat constructor. lia.
Qed.

Lemma delete_stashes_ascending l :
  Sorted lt (delete_stashes keep queued l).
Proof.
  induction l as [|c l IH] using rev_ind; [constructor|].
  rewrite delete_stashes_snoc. case_decide; [by rewrite app_nil_r|].
  apply Sorted_snoc; [done|].
  pose proof (delete_stashes_bound l) as Hb.
  destruct (delete_stashes keep queued l) as [|y r _] using rev_ind;
    constructor.
  apply Forall_app in Hb as [_ Hb]. by inversion Hb.
Qed.

Lemma delete_stashes_length l :
  length (delete_stashes keep queued l)
  = (length l - length (filter stash_kept l))%nat.
Proof.
  induction l as [|c l IH] using rev_ind; [done|].
  rewrite delete_stashes_snoc, filter_app, !length_app, IH.
  pose proof (length_filter stash_kept l).
  rewrite filter_cons, filter_nil.
  case_decide; cbn; lia.
Qed.

Lemma drop_all_delete_stashes l rest :
  drop_all (reverse (delete_stashes keep queued l)) (l ++ rest)
  = Ok (filter stash_kept l ++ rest).
Proof.
  revert rest. induction l as [|c l IH] using rev_ind; intros rest; [done|].
  rewrite delete_stashes_snoc, filter_app, filter_cons, filter_nil.
  case_decide.
  - rewrite app_nil_r, <- !app_assoc. apply IH.
  - rewrite reverse_app. cbn [reverse rev_append app drop_all].
    unfold stash_drop. rewrite decide_True by (rewrite !length_app; cbn; lia).
    rewrite <- !app_assoc. cbn [app].
    rewrite take_app_length.
    replace (drop (S (length l)) (l ++ c :: rest)) with rest.
    + apply IH.
    + change (S (length l)) with (1 + length l)%nat.
      rewrite Nat.add_comm, <- drop_drop, drop_app_length. done.
Qed.

Lemma sorted_reverse_ascending (l : list nat) :
  Sorted lt l → sorted_reverse l = reverse l.
Proof.
  intros Hs. unfold sorted_reverse.
  assert (Transitive desc) by (unfold desc; intros ???; lia).
  assert (AntiSymm (=) desc) by (unfold desc; intros ????; lia).
  assert (Total desc) by (unfold desc; intros ??; lia).
  apply (Sorted_unique desc).
  - apply Sorted_merge_sort; apply _.
  - apply (Sorted_weaken (flip lt)); [unfold desc, flip; lia|].
    by apply Sorted_reverse.
  - rewrite merge_sort_Permutation. by rewrite reverse_Permutation.
Qed.
End GcStash.

(** ** Reference GC: the claims *)

Lemma gc_unfold exp_refs repo ab at_ ac ws queued :
  let keep := keep_revs repo ab at_ ac ws in
  keep ≠ ∅ →
  gc exp_refs repo ab at_ ac ws queued
  = let refs0 := scm_refs repo in
    let loop :=
      foldl (gc_ref_step keep (get_ref refs0 EXEC_BRANCH false)
               (get_ref refs0 EXEC_APPLY true)
               (get_ref refs0 EXEC_CHECKPOINT true))
            (refs0, 0) (exp_refs refs0) in
    Ok (loop.2 + (length (exp_stash repo)
                  - length (filter (stash_kept keep queued) (exp_stash repo))),
        mkRepo (brancher repo) (scm_rev repo) loop.1
               (filter (stash_kept keep queued) (exp_stash repo))).
Proof.
  intros keep Hne. unfold gc. fold keep. rewrite decide_False by done.
  cbv zeta. destruct (foldl _ _ _) as [refs n].
  rewrite sorted_reverse_ascending by apply delete_stashes_ascending.
  pose proof (drop_all_delete_stashes keep queued (exp_stash repo) []) as Hd.
  rewrite !app_nil_r in Hd. rewrite Hd.
  by rewrite delete_stashes_length.
Qed.

(** C8, as the code has it: when the keep set is not empty, [gc] removes every
    experiment reference whose baseline is not kept and leaves every other
    reference that is not an exec pointer untouched; it empties the stash
    unless [queued] is set, in which case it removes the queued entries whose
    baseline is not kept; and it returns the number of removed references plus
    the number of removed queued entries. *)
Theorem gc_removes_unretained exp_refs repo ab at_ ac ws queued :
  let keep := keep_revs repo ab at_ ac ws in
  let doomed := filter (fun r => baseline_sha r ∉ keep) (exp_refs (scm_refs repo)) in
  let stash' := filter (stash_kept keep queued) (exp_stash repo) in
  keep ≠ ∅ →
  ∃ refs',
    gc exp_refs repo ab at_ ac ws queued
    = Ok (length doomed + (length (exp_stash repo) - length stash'),
          mkRepo (brancher repo) (scm_rev repo) refs' stash')
    ∧ (∀ ri, ri ∈ doomed → refs' !! ref_name ri = None)
    ∧ (∀ name, ¬ is_exec_pointer name →
               (∀ ri, ri ∈ doomed → ref_name ri ≠ name) →
               refs' !! name = scm_refs repo !! name)
    ∧ (queued = false → stash' = [])
    ∧ (queued = true →
       stash' = filter (fun c => stash_baseline c ∈ keep) (exp_stash repo)).
Proof.
  intros keep doomed stash' Hne.
  rewrite gc_unfold by done. fold keep. cbv zeta.
  eexists. split; [|split; [|split; [|split]]].
  - rewrite gc_loop_count. reflexivity.
  - intros ri [Hout Hin]%list_elem_of_filter. by apply gc_loop_removes.
  - intros name Hptr Hother. apply gc_loop_other; [done|].
    intros ri Hin Hout. apply Hother. by apply list_elem_of_filter.
  - intros ->. subst stash'. induction (exp_stash repo) as [|c l IH]; [done|].
    rewrite filter_cons, decide_False; [done|]. by intros [? _].
  - intros ->. subst stash'. induction (exp_stash repo) as [|c l IH]; [done|].
    rewrite !filter_cons, IH. unfold stash_kept at 1.
    repeat case_decide; try done; tauto.
Qed.

(** The spec's scenario: keep set {"rev1"}, references R1 and R2, one queued
    entry on "rev2", the apply pointer at R2's commit. *)
Lemma gc_removes_unretained_witness :
  ∃ refs',
    gc demo_exp_refs
       (demo_repo [(EXEC_APPLY, Sha "c2")] [mkStashCommit "s0" "rev2"])
       true false false false true
    = Ok (2, mkRepo (brancher (demo_repo [] [])) "rev1" refs' [])
    ∧ refs' !! R2 = None ∧ refs' !! R1 = Some (Sha "c1").
Proof.
  destruct (gc_removes_unretained demo_exp_refs
              (demo_repo [(EXEC_APPLY, Sha "c2")] [mkStashCommit "s0" "rev2"])
              true false false false true)
    as (refs' & Hgc & Hrm & Hkeep & _ & _).
  { vm_compute. discriminate. }
  exists refs'. split; [exact Hgc|]. split.
  - apply (Hrm (mkExpRef "rev2" R2)). vm_compute.
    apply elem_of_cons. by left.
  - rewrite (Hkeep R1).
    + vm_compute. reflexivity.
    + unfold is_exec_pointer. vm_compute. intuition discriminate.
    + intros ri Hri. vm_compute in Hri.
      apply elem_of_cons in Hri as [->|Hri]; [discriminate|].
      by apply elem_of_nil in Hri.
Defined.

(** C8 as stated fails twice over.  With [queued] left at its default, a
    queued entry whose baseline is kept is removed although nobody asked for
    the whole queue to be cleared; and with an empty keep set a reference
    whose baseline is not kept stays. *)
Lemma gc_queue_cleared_by_default :
  let repo := demo_repo [] [mkStashCommit "s0" "rev1"] in
  ((stash_baseline (mkStashCommit "s0" "rev1")
      ∈ keep_revs repo true false false false)
   ∧ gc demo_exp_refs repo true false false false false
     = Ok (2, mkRepo (brancher repo) "rev1" {[ R1 := Sha "c1" ]} []))
  ∧ ((baseline_sha (mkExpRef "rev2" R2)
        ∉ keep_revs repo false false false false)
     ∧ gc demo_exp_refs repo false false false false false = Ok (0, repo)).
Proof.
  cbv zeta. split; split.
  - unfold keep_revs. cbn. set_solver.
  - by vm_compute.
  - unfold keep_revs. cbn. set_solver.
  - by vm_compute.
Qed.

(** C9 at the failing input: the exec-branch pointer is a symbolic reference
    to R1, whose baseline is kept; [gc] removes R2 only, and clears the
    pointer all the same, while the test of the two sibling pointers leaves
    the apply pointer (at R1's commit) in place. *)
Theorem gc_clears_exec_branch_of_kept_ref :
  let repo := demo_repo [(EXEC_BRANCH, SymRef R1); (EXEC_APPLY, Sha "c1")] [] in
  get_ref (scm_refs repo) EXEC_BRANCH false = Some R1
  ∧ ∃ refs',
      gc demo_exp_refs repo true false false false true
      = Ok (1, mkRepo (brancher repo) "rev1" refs' [])
      ∧ refs' !! R1 = Some (Sha "c1")
      ∧ refs' !! R2 = None
      ∧ refs' !! EXEC_APPLY = Some (Sha "c1")
      ∧ refs' !! EXEC_BRANCH = None.
Proof.
  cbv zeta. split; [by vm_compute|].
  eexists. split; [vm_compute; reflexivity|].
  repeat split; by vm_compute.
Qed.

(** C10: with an empty keep set [gc] returns 0 and the repository is the one
    it was given: references, exec pointers and stash are unchanged. *)
Theorem gc_empty_keep_noop exp_refs repo ab at_ ac ws queued :
  keep_revs repo ab at_ ac ws = ∅ →
  gc exp_refs repo ab at_ ac ws queued = Ok (0, repo).
Proof. intros Hempty. unfold gc. by rewrite decide_True. Qed.

Lemma gc_empty_keep_noop_witness :
  let repo :=
    demo_repo [(EXEC_BRANCH, SymRef R2)] [mkStashCommit "s0" "rev2"] in
  gc demo_exp_refs repo false false false false false = Ok (0, repo).
Proof. cbv zeta. apply gc_empty_keep_noop. by vm_compute. Defined.

(** ** Hashing: the directory manifest *)

Lemma strip_prefix_app pre l r :
  strip_prefix pre l = Some r → l = pre ++ r.
Proof.
  revert l. induction pre as [|a pre IH]; intros [|b l] H; cbn in H; try done.
  - by inversion H.
  - by inversion H.
  - case_decide; [|done]. subst. cbn. f_equal. by apply IH.
Qed.


Lemma relative_to_join fi root r :
  relative_to fi root = Some r → fi = loc_join root r.
Proof.
  unfold relative_to, loc_join. case_decide as Hs; [|done].
  intros H%strip_prefix_app. destruct fi as [s p]. cbn in *. by subst.
Qed.

Lemma relative_to_inj fi fi' root r :
  relative_to fi root = Some r → relative_to fi' root = Some r → fi = fi'.
Proof. intros H1%relative_to_join H2%relative_to_join. congruence. Qed.

Lemma loc_parent_join root name : loc_parent (loc_join root [name]) = root.
Proof.
  destruct root as [s p]. unfold loc_parent, loc_join. cbn.
  by rewrite removelast_last.
Qed.

Lemma collect_loop_ok root pairs d :
  Forall unmarked pairs →
  Forall (fun p => is_Some (relative_to p.1 root)) pairs →
  collect_loop root pairs d
  = Ok (mkDirInfo (foldl (fun m kv => <[kv.1 := kv.2]> m) (trie d)
                         (omap (manifest_entry root) pairs))).
Proof.
  revert d. induction pairs as [|[fi hi] pairs IH]; intros d Hm Hr.
  - by destruct d.
  - apply Forall_cons in Hm as [Hm1 Hm]. apply Forall_cons in Hr as [[r Hr1] Hr].
    cbn in Hr1. cbn [collect_loop omap list_omap].
    rewrite decide_False by (unfold unmarked in Hm1; cbn in Hm1; congruence).
    unfold manifest_entry at 1. cbn [fst snd]. rewrite Hr1. cbn.
    by rewrite IH.
Qed.

Lemma collect_loop_value_error root pairs d :
  Forall unmarked pairs →
  Exists (fun p => relative_to p.1 root = None) pairs →
  collect_loop root pairs d = Err ValueError.
Proof.
  revert d. induction pairs as [|[fi hi] pairs IH]; intros d Hm Hex.
  - by apply Exists_nil in Hex.
  - apply Forall_cons in Hm as [Hm1 Hm]. cbn [collect_loop].
    rewrite decide_False by (unfold unmarked in Hm1; cbn in Hm1; congruence).
    destruct (relative_to fi root) as [r|] eqn:Hr; [|done].
    apply Exists_cons in Hex as [Hex|Hex]; [cbn in Hex; congruence|].
    by apply IH.
Qed.

Lemma foldl_insert_perm (l l' : list (list string * HashInfo))
    (m : gmap (list string) HashInfo) :
  l ≡ₚ l' → NoDup l.*1 →
  foldl (fun m kv => <[kv.1 := kv.2]> m) m l
  = foldl (fun m kv => <[kv.1 := kv.2]> m) m l'.
Proof.
  intros Hp. revert m.
  induction Hp as [|x l l' Hp IH|x y l|l l' l'' Hp1 IH1 Hp2 IH2]; intros m Hnd.
  - done.
  - cbn. apply IH. by apply NoDup_cons in Hnd as [_ ?].
  - cbn. f_equal. apply insert_insert_ne.
    cbn in Hnd. apply NoDup_cons in Hnd as [Hnd _].
    apply not_elem_of_cons in Hnd as [Hnd _]. done.
  - rewrite IH1 by done. apply IH2. by rewrite <- Hp1.
Qed.

Lemma manifest_entries_NoDup root pairs :
  NoDup pairs.*1 → NoDup (omap (manifest_entry root) pairs).*1.
Proof.
  induction pairs as [|[fi hi] pairs IH]; intros Hnd; [constructor|].
  cbn in Hnd. apply NoDup_cons in Hnd as [Hfresh Hnd].
  cbn [omap list_omap]. unfold manifest_entry at 1. cbn [fst snd].
  destruct (relative_to fi root) as [r|] eqn:Hr; cbn; [|by apply IH].
  apply NoDup_cons. split; [|by apply IH].
  intros ([r' h'] & -> & Hin)%list_elem_of_fmap. cbn in Hin.
  apply list_elem_of_omap in Hin as ([fi' hi'] & Hin & Hentry).
  unfold manifest_entry in Hentry. cbn in Hentry.
  destruct (relative_to fi' root) as [r''|] eqn:Hr'; [|done].
  cbn in Hentry. inversion Hentry; subst.
  apply Hfresh. rewrite (relative_to_inj _ _ _ _ Hr Hr').
  apply list_elem_of_fmap. by exists (fi', h').
Qed.

(** The manifest does not depend on the order in which distinct, unmarked
    members are yielded. *)
Lemma collect_loop_perm root pairs pairs' d :
  pairs ≡ₚ pairs' → NoDup pairs.*1 → Forall unmarked pairs →
  collect_loop root pairs d = collect_loop root pairs' d.
Proof.
  intros Hp Hnd Hm.
  assert (Forall unmarked pairs') as Hm' by by rewrite <- Hp.
  destruct (decide (Forall (fun p => is_Some (relative_to p.1 root)) pairs))
    as [Hr|Hr].
  - rewrite !collect_loop_ok; try done; [|by rewrite <- Hp].
    do 2 f_equal. apply foldl_insert_perm.
    + by rewrite Hp.
    + by apply manifest_entries_NoDup.
  - assert (Exists (fun p => relative_to p.1 root = None) pairs) as Hex.
    { apply not_Forall_Exists in Hr; [|apply _].
      eapply Exists_impl; [exact Hr|]. cbn. intros p Hn.
      destruct (relative_to p.1 root); [|done]. by destruct Hn. }
    rewrite !collect_loop_value_error; try done. by rewrite <- Hp.
Qed.

(** ** Hashing: what [_iter_hashes] yields *)

Section IterHashes.
Context {Ext : Type} (self : BaseTree Ext) (w : World Ext).

#[local] Abbreviation cached_pair :=
  (fun fi => (fun h => (fi, h)) <$> truthy_hash (state_get (state self) fi w)).
#[local] Abbreviation uncached :=
  (fun fi => truthy_hash (state_get (state self) fi w) = None).

Lemma walk_cached_yielded files :
  (walk_cached self files w).1 = omap cached_pair files.
Proof.
  induction files as [|fi files IH]; [done|].
  cbn [walk_cached omap list_omap].
  destruct (walk_cached self files w) as [y fis]. cbn in IH. subst y.
  by destruct (truthy_hash _).
Qed.

Lemma walk_cached_file_infos files :
  (walk_cached self files w).2 = filter uncached files.
Proof.
  induction files as [|fi files IH]; [done|].
  cbn [walk_cached]. rewrite filter_cons.
  destruct (walk_cached self files w) as [y fis]. cbn in IH. subst fis.
  destruct (truthy_hash _) eqn:E; cbn.
  - by rewrite decide_False.
  - by rewrite decide_True.
Qed.

Lemma dict_set_fresh {K V} `{EqDecision K} (k : K) (v : V) d :
  k ∉ d.*1 → dict_set k v d = d ++ [(k, v)].
Proof.
  induction d as [|[k' v'] d IH]; intros Hk; [done|].
  cbn in Hk. apply not_elem_of_cons in Hk as [Hne Hk].
  cbn. rewrite decide_False by done. by rewrite IH.
Qed.

Lemma py_dict_distinct {K V} `{EqDecision K} (pairs : list (K * V)) :
  NoDup pairs.*1 → py_dict pairs = pairs.
Proof.
  unfold py_dict. change pairs with ([] ++ pairs) at 1 3.
  generalize (@nil (K * V)) as acc.
  induction pairs as [|[k v] pairs IH]; intros acc Hnd.
  - by rewrite app_nil_r.
  - cbn [foldl fst snd].
    rewrite fmap_app, NoDup_app in Hnd. destruct Hnd as (Hacc & Hdisj & Hnd).
    cbn in Hnd. apply NoDup_cons in Hnd as [Hk Hnd].
    rewrite dict_set_fresh.
    + rewrite (IH (acc ++ [(k, v)])).
      * by rewrite <- app_assoc.
      * rewrite <- app_assoc. cbn. rewrite fmap_app. apply NoDup_app.
        split; [done|]. split; [|by apply NoDup_cons].
        intros x Hx. by apply Hdisj.
    + intros Hin. apply (Hdisj k Hin). cbn. apply elem_of_cons. by left.
Qed.

Lemma zip_with_hashes (f : Location → HashInfo) files :
  zip files (f <$> files) = (fun fi => (fi, f fi)) <$> files.
Proof. induction files as [|fi files IH]; [done|]. cbn. by rewrite IH. Qed.

Lemma _calculate_hashes_distinct file_infos :
  NoDup file_infos →
  _calculate_hashes self file_infos w
  = (fun fi => (fi, get_file_hash self fi w)) <$> file_infos.
Proof.
  intros Hnd. unfold _calculate_hashes.
  rewrite zip_with_hashes. apply py_dict_distinct.
  rewrite <- list_fmap_compose.
  rewrite (list_fmap_ext _ id) by done. by rewrite list_fmap_id.
Qed.

Lemma walk_pairs_perm files files' :
  files ≡ₚ files' → walk_pairs self w files ≡ₚ walk_pairs self w files'.
Proof. intros Hp. unfold walk_pairs. by rewrite Hp. Qed.

Lemma walk_pairs_fst files : (walk_pairs self w files).*1 ≡ₚ files.
Proof.
  unfold walk_pairs. induction files as [|fi files IH]; [done|].
  cbn [omap list_omap]. rewrite filter_cons.
  destruct (truthy_hash (state_get (state self) fi w)) eqn:E; cbn.
  - rewrite decide_False by done. by rewrite IH.
  - rewrite decide_True by done. cbn. rewrite fmap_app in *. cbn.
    rewrite <- Permutation_middle. by rewrite IH.
Qed.
End IterHashes.

Lemma _iter_hashes_walk_of {Ext} (self : BaseTree Ext) path_info w :
  checksum_in_details self = false →
  NoDup (walk_files self path_info w) →
  _iter_hashes self path_info w
  = walk_pairs self w (walk_files self path_info w).
Proof.
  intros Hd Hnd. unfold _iter_hashes, walk_pairs. rewrite Hd.
  pose proof (walk_cached_yielded self w (walk_files self path_info w)) as H1.
  pose proof (walk_cached_file_infos self w (walk_files self path_info w)) as H2.
  destruct (walk_cached self _ w) as [y fis]. cbn in H1, H2. subst y fis.
  f_equal. apply _calculate_hashes_distinct. by apply NoDup_filter.
Qed.

Section DirHash.
Context {Ext : Type} (self : BaseTree Ext).

Lemma _iter_hashes_walk path_info w :
  checksum_in_details self = false →
  NoDup (walk_files self path_info w) →
  _iter_hashes self path_info w
  = walk_pairs self w (walk_files self path_info w).
Proof. apply _iter_hashes_walk_of. Qed.

Lemma _iter_hashes_distinct path_info w :
  distinct_members self path_info w →
  NoDup (_iter_hashes self path_info w).*1.
Proof.
  intros [Hw Hl]. destruct (checksum_in_details self) eqn:Hd.
  - unfold _iter_hashes. rewrite Hd. rewrite <- list_fmap_compose.
    assert (Inj (=) (=) (mkLoc (loc_scheme path_info))) as Hinj
      by (intros ???; congruence).
    apply (NoDup_fmap_2 (mkLoc (loc_scheme path_info))) in Hl.
    by rewrite <- list_fmap_compose in Hl.
  - rewrite _iter_hashes_walk by done. by rewrite walk_pairs_fst.
Qed.

Lemma _iter_hashes_unmarked path_info w :
  no_ignore_marker self path_info w →
  distinct_members self path_info w →
  Forall unmarked (_iter_hashes self path_info w).
Proof.
  intros [Hw Hl] Hnd. destruct (checksum_in_details self) eqn:Hd.
  - unfold _iter_hashes. rewrite Hd. apply Forall_fmap.
    eapply Forall_impl; [exact Hl|]. by intros d Hn.
  - rewrite _iter_hashes_walk by (done || apply Hnd).
    apply (Forall_fmap fst (fun fi => loc_name fi ≠ DVCIGNORE_FILE)).
    by rewrite walk_pairs_fst.
Qed.

Lemma _iter_hashes_perm path_info w files' details' :
  distinct_members self path_info w →
  walk_files self path_info w ≡ₚ files' →
  ls self path_info w ≡ₚ details' →
  _iter_hashes self path_info w
  ≡ₚ _iter_hashes
       (with_enumeration self (fun _ _ => files') (fun _ _ => details'))
       path_info w.
Proof.
  intros [Hw Hl] Hpw Hpl.
  destruct (checksum_in_details self) eqn:Hd.
  - unfold _iter_hashes, checksum_in_details in *. cbn. rewrite Hd.
    by rewrite Hpl.
  - rewrite (_iter_hashes_walk path_info w) by done.
    rewrite (_iter_hashes_walk_of (with_enumeration self _ _)).
    + cbn. unfold walk_pairs. cbn. by rewrite Hpw.
    + done.
    + cbn. by rewrite <- Hpw.
Qed.
End DirHash.

(** C3: for a directory without ignore marker whose members are enumerated
    once each, enumerating the members in another order gives the same
    manifest and the same directory hash (and leaves the world the same). *)
Theorem get_dir_hash_order_independent {Ext} (self : BaseTree Ext)
    (path_info : Location) (w : World Ext)
    (files' : list Location) (details' : list Details) :
  let w0 := state_enter (state self) w in
  let self' := with_enumeration self (fun _ _ => files') (fun _ _ => details') in
  no_ignore_marker self path_info w0 →
  distinct_members self path_info w0 →
  walk_files self path_info w0 ≡ₚ files' →
  ls self path_info w0 ≡ₚ details' →
  _collect_dir self' path_info w0 = _collect_dir self path_info w0
  ∧ get_dir_hash self' path_info w = get_dir_hash self path_info w.
Proof.
  intros w0 self' Hm Hnd Hpw Hpl.
  assert (_collect_dir self' path_info w0 = _collect_dir self path_info w0) as Hc.
  { unfold _collect_dir. symmetry. apply collect_loop_perm.
    - by apply _iter_hashes_perm.
    - by apply _iter_hashes_distinct.
    - by apply _iter_hashes_unmarked. }
  split; [done|].
  unfold get_dir_hash, use_state. cbn. fold w0. fold self'. by rewrite Hc.
Qed.

(** ** Hashing: the ignore marker *)

Lemma collect_loop_first_marked root before fi hi after d :
  Forall unmarked before →
  Forall (fun p => is_Some (relative_to p.1 root)) before →
  loc_name fi = DVCIGNORE_FILE →
  collect_loop root (before ++ (fi, hi) :: after) d
  = Err (DvcIgnoreInCollectedDirError (loc_parent fi)).
Proof.
  revert d. induction before as [|[fi' hi'] before IH]; intros d Hm Hr Hname.
  - cbn. by rewrite decide_True.
  - apply Forall_cons in Hm as [Hm1 Hm]. apply Forall_cons in Hr as [[r Hr1] Hr].
    cbn in Hr1. cbn [app collect_loop].
    rewrite decide_False by (unfold unmarked in Hm1; cbn in Hm1; congruence).
    rewrite Hr1. by apply IH.
Qed.

Lemma collect_loop_marked_fails root pairs d :
  Exists (fun p => loc_name p.1 = DVCIGNORE_FILE) pairs →
  ∃ e, collect_loop root pairs d = Err e.
Proof.
  revert d. induction pairs as [|[fi hi] pairs IH]; intros d Hex.
  - by apply Exists_nil in Hex.
  - cbn [collect_loop]. case_decide as Hn; [by eexists|].
    destruct (relative_to fi root); [|by eexists].
    apply IH. apply Exists_cons in Hex as [Hex|Hex]; [|done].
    cbn in Hex. congruence.
Qed.

Lemma first_marked (pairs : list (Location * HashInfo)) :
  Exists (fun p => loc_name p.1 = DVCIGNORE_FILE) pairs →
  ∃ before p after,
    pairs = before ++ p :: after
    ∧ Forall unmarked before ∧ loc_name p.1 = DVCIGNORE_FILE.
Proof.
  induction pairs as [|p pairs IH]; intros Hex.
  - by apply Exists_nil in Hex.
  - destruct (decide (loc_name p.1 = DVCIGNORE_FILE)) as [Hp|Hp].
    + by exists [], p, pairs.
    + apply Exists_cons in Hex as [Hex|Hex]; [done|].
      destruct (IH Hex) as (before & q & after & -> & Hb & Hq).
      exists (p :: before), q, after. split; [done|]. split; [|done].
      by constructor.
Qed.

Lemma marker_member_name fi root :
  relative_to fi root = Some [DVCIGNORE_FILE] →
  loc_name fi = DVCIGNORE_FILE ∧ loc_parent fi = root.
Proof.
  intros ->%relative_to_join. split; [|apply loc_parent_join].
  unfold loc_name, loc_join. cbn. apply last_last.
Qed.

(** C4: when a member's relative path is the ignore-marker filename,
    [get_dir_hash] fails and the cache-store is never asked to persist a
    manifest.  With all members below the directory, the error is
    [DvcIgnoreInCollectedDirError] naming the parent of the first member
    yielded that is named like the marker; that parent is the hashed
    directory itself when no member of a subdirectory is named like it. *)
Theorem get_dir_hash_rejects_ignore_marker {Ext} (self : BaseTree Ext)
    (path_info : Location) (w : World Ext) (marker : Location) :
  let w0 := state_enter (state self) w in
  marker ∈ members self path_info w0 →
  relative_to marker path_info = Some [DVCIGNORE_FILE] →
  (∃ e, _collect_dir self path_info w0 = Err e
        ∧ get_dir_hash self path_info w = (Err e, state_exit (state self) w0))
  ∧ (Forall (fun fi => is_Some (relative_to fi path_info))
            (members self path_info w0) →
     ∃ before fi after,
       members self path_info w0 = before ++ fi :: after
       ∧ Forall (fun fi' => loc_name fi' ≠ DVCIGNORE_FILE) before
       ∧ loc_name fi = DVCIGNORE_FILE
       ∧ get_dir_hash self path_info w
         = (Err (DvcIgnoreInCollectedDirError (loc_parent fi)),
            state_exit (state self) w0)
       ∧ ((∀ fi', fi' ∈ members self path_info w0 →
                  loc_name fi' = DVCIGNORE_FILE → fi' = marker) →
          loc_parent fi = path_info)).
Proof.
  intros w0 Hin Hrel.
  destruct (marker_member_name _ _ Hrel) as [Hname Hparent].
  assert (Exists (fun p => loc_name p.1 = DVCIGNORE_FILE)
                 (_iter_hashes self path_info w0)) as Hex.
  { unfold members in Hin. apply list_elem_of_fmap in Hin as (p & -> & Hp).
    apply Exists_exists. by exists p. }
  split.
  - destruct (collect_loop_marked_fails path_info _ (mkDirInfo ∅) Hex) as [e He].
    exists e. split; [done|].
    unfold get_dir_hash, use_state. fold w0. unfold _collect_dir. by rewrite He.
  - intros Hbelow.
    destruct (first_marked _ Hex) as (before & [fi hi] & after & Heq & Hb & Hfi).
    cbn in Hfi.
    exists before.*1, fi, after.*1.
    assert (members self path_info w0 = before.*1 ++ fi :: after.*1) as Hmem.
    { unfold members. by rewrite Heq, fmap_app. }
    split; [done|]. split; [by apply Forall_fmap|]. split; [done|]. split.
    + unfold get_dir_hash, use_state. fold w0. unfold _collect_dir.
      rewrite Heq, collect_loop_first_marked; try done.
      rewrite Hmem in Hbelow. apply Forall_app in Hbelow as [Hbelow _].
      by apply (Forall_fmap fst) in Hbelow.
    + intros Honly. rewrite (Honly fi); [done| |done].
      rewrite Hmem. apply elem_of_app. right. apply elem_of_cons. by left.
Qed.

(** ** Hashing: [get_hash] and the fingerprint cache *)

Section GetHash.
Context {Ext : Type} (self : BaseTree Ext).
Variable meanwhile : World Ext → World Ext.

(** What [get_hash] does once the location passed the checks of lines
    250-255 and the fingerprint cache gave nothing usable. *)
Lemma get_hash_miss path_info w :
  let w0 := state_enter (state self) w in
  loc_scheme path_info = scheme self →
  exists_ self path_info w0 = true →
  truthy_hash (cached_hash self path_info w0) = None →
  get_hash self meanwhile path_info w
  = use_state self (get_hash_compute self meanwhile path_info) w.
Proof.
  intros w0 Hs He Hmiss. unfold get_hash, use_state. fold w0.
  rewrite bool_decide_eq_true_2 by done. cbn. rewrite He. cbn.
  by rewrite Hmiss.
Qed.

Lemma cached_hash_absent path_info w :
  state_get (state self) path_info w = None →
  cached_hash self path_info w = None.
Proof. intros H. unfold cached_hash. by rewrite H. Qed.

Lemma hi_isdir_truthy h : hi_isdir h = true → hi_truthy h = true.
Proof.
  unfold hi_isdir, hi_truthy, is_dir_hash, opt_truthy.
  destruct (hi_value h) as [v|]; [|done]. by destruct (str_truthy v).
Qed.

Lemma cached_hash_lost_dir path_info w h :
  state_get (state self) path_info w = Some h →
  hi_isdir h = true →
  cache_tree_exists self
    (hash_to_path_info (cache_tree_path_info self) (default EmptyString (hi_value h))) w
  = false →
  cached_hash self path_info w = None.
Proof.
  intros Hget Hdir Hlost. unfold cached_hash. rewrite Hget. cbn.
  rewrite (hi_isdir_truthy _ Hdir), Hdir, Hlost. done.
Qed.
End GetHash.

(** C5: when the fingerprint cache holds a directory hash for an existing
    location and the cache no longer holds the manifest at the place that hash
    maps to, [get_hash] drops the entry and does what it does on a miss: it
    computes the hash again (and saves it), it does not answer from the
    cache. *)
Theorem get_hash_recollects_lost_dir {Ext} (self : BaseTree Ext)
    (meanwhile : World Ext → World Ext) (path_info : Location)
    (w : World Ext) (h : HashInfo) :
  let w0 := state_enter (state self) w in
  loc_scheme path_info = scheme self →
  exists_ self path_info w0 = true →
  state_get (state self) path_info w0 = Some h →
  hi_isdir h = true →
  cache_tree_exists self
    (hash_to_path_info (cache_tree_path_info self) (default EmptyString (hi_value h))) w0
  = false →
  cached_hash self path_info w0 = None
  ∧ get_hash self meanwhile path_info w
    = use_state self (get_hash_compute self meanwhile path_info) w.
Proof.
  intros w0 Hs He Hget Hdir Hlost.
  assert (cached_hash self path_info w0 = None) as Hc
    by by eapply cached_hash_lost_dir.
  split; [done|]. apply get_hash_miss; try done. fold w0. by rewrite Hc.
Qed.

(** C6: on the miss path, once a hash has been computed, [get_hash] saves it
    in the fingerprint cache exactly when the location exists in the world as
    it is after the computation; when the location is gone by then, the world
    is handed back with no [state.save] applied. *)
Theorem get_hash_saves_only_if_exists {Ext} (self : BaseTree Ext)
    (meanwhile : World Ext → World Ext) (path_info : Location)
    (w w1 : World Ext) (hash_info : HashInfo) :
  let w0 := state_enter (state self) w in
  let w2 := meanwhile w1 in
  loc_scheme path_info = scheme self →
  exists_ self path_info w0 = true →
  truthy_hash (cached_hash self path_info w0) = None →
  compute_hash self path_info w0 = (Ok hash_info, w1) →
  hi_truthy hash_info = true →
  (exists_ self path_info w2 = true →
   get_hash self meanwhile path_info w
   = (Ok (Some hash_info),
      state_exit (state self) (state_save (state self) path_info hash_info w2)))
  ∧ (exists_ self path_info w2 = false →
     get_hash self meanwhile path_info w
     = (Ok (Some hash_info), state_exit (state self) w2)).
Proof.
  intros w0 w2 Hs He Hmiss Hcomp Htruthy.
  rewrite get_hash_miss by done.
  unfold use_state, get_hash_compute. fold w0. rewrite Hcomp. fold w2.
  rewrite Htruthy. cbn.
  split; intros ->; done.
Qed.

(** ** Transfer: a single object *)

Lemma string_append_length (s t : string) :
  String.length (String.append s t) = (String.length s + String.length t)%nat.
Proof.
  induction s as [|c s IH]; [done|].
  change (String c s +:+ t) with (String c (s +:+ t)). cbn. by rewrite IH.
Qed.

Lemma tmp_fname_adjacent uuid fname :
  removelast (tmp_fname uuid fname) = removelast fname.
Proof. unfold tmp_fname. apply removelast_last. Qed.

Lemma tmp_fname_fresh uuid fname : tmp_fname uuid fname ≠ fname.
Proof.
  unfold tmp_fname. intros Heq.
  destruct (decide (fname = [])) as [->|Hne]; [done|].
  rewrite (app_removelast_last EmptyString Hne) in Heq at 3.
  apply app_inv_head in Heq. inversion Heq as [Hlast].
  apply (f_equal String.length) in Hlast.
  rewrite !string_append_length in Hlast. cbn in Hlast. lia.
Qed.

Lemma makedirs_files path fs fs' :
  makedirs path fs = Ok fs' → fs_files fs' = fs_files fs.
Proof. unfold makedirs. case_bool_decide; [done|]. by intros [= <-]. Qed.

Lemma move_target src dst fs fs' :
  move src dst fs = Ok fs' → fs_files fs' !! dst = fs_files fs !! src
                             ∧ is_Some (fs_files fs !! src).
Proof.
  unfold move. destruct (fs_files fs !! src) as [data|] eqn:E; [|done].
  intros [= <-]. cbn. by rewrite lookup_insert_eq.
Qed.

(** C2: with a backend whose [_download] writes only the file it is given,
    [_download_file] hands the backend a temporary file next to the
    destination (same directory, another name) and moves it into place after
    the backend returned without error.  In every world seen before the call
    returns the destination holds what it held before; when the call fails,
    it still does; when it succeeds, the destination holds what the finished
    temporary file held. *)
Theorem _download_file_atomic {Ext} (self : BaseTree Ext) (uuid : string)
    (from_info to_info : Location) (w : World Ext)
    (backend_download : Location → list string → World Ext → DownloadRun Ext) :
  let run := _download_file self uuid from_info to_info w in
  let dst := loc_parts to_info in
  let tmp := tmp_fname uuid dst in
  _download self = Some backend_download →
  backend_writes_only_target backend_download →
  (removelast tmp = removelast dst ∧ tmp ≠ dst)
  ∧ Forall (fun s => file_at s dst = file_at w dst) (dl_partial run)
  ∧ (∀ e, dl_result run = Err e → file_at (dl_final run) dst = file_at w dst)
  ∧ (dl_result run = Ok tt →
     ∃ fs1,
       makedirs (loc_parts (loc_parent to_info)) (local_fs w) = Ok fs1
       ∧ let backend_run := backend_download from_info tmp (mkWorld fs1 (ext w)) in
         dl_result backend_run = Ok tt
         ∧ is_Some (file_at (dl_final backend_run) tmp)
         ∧ file_at (dl_final run) dst = file_at (dl_final backend_run) tmp).
Proof.
  intros run dst tmp Hdl Hframe.
  split; [split; [apply tmp_fname_adjacent|apply tmp_fname_fresh]|].
  assert (tmp ≠ dst) as Hfresh by apply tmp_fname_fresh.
  subst run. unfold _download_file. fold dst. fold tmp.
  destruct (makedirs _ (local_fs w)) as [fs1|e1] eqn:Hmk.
  2:{ cbn. split; [constructor|]. split; [done|done]. }
  apply makedirs_files in Hmk as Hfiles. rewrite Hdl.
  set (w1 := mkWorld fs1 (ext w)).
  assert (file_at w1 dst = file_at w dst) as Hw1
    by (unfold file_at; cbn; by rewrite Hfiles).
  pose proof (Hframe from_info tmp w1) as Hrun.
  set (backend_run := backend_download from_info tmp w1) in *.
  unfold writes_only in Hrun. apply Forall_app in Hrun as [Hpartial Hfinal].
  assert (dst ≠ tmp) as Hfresh' by done.
  assert (Forall (fun s => file_at s dst = file_at w dst)
                 (w1 :: dl_partial backend_run)) as Hseen.
  { constructor; [done|]. eapply Forall_impl; [exact Hpartial|].
    intros s Hs. unfold file_at. rewrite (Hs dst Hfresh'). exact Hw1. }
  assert (file_at (dl_final backend_run) dst = file_at w dst) as Hw2.
  { inversion Hfinal as [|? ? Hfin _]; subst.
    unfold file_at. rewrite (Hfin dst Hfresh'). exact Hw1. }
  destruct (dl_result backend_run) as [[]|e2] eqn:Hres.
  - destruct (move tmp dst (local_fs (dl_final backend_run))) as [fs3|e3] eqn:Hmv.
    + cbn. split; [|split; [done|]].
      * rewrite app_comm_cons. apply Forall_app. split; [done|].
        by apply Forall_singleton.
      * intros _. exists fs1. split; [done|].
        apply move_target in Hmv as [Hdst Hsrc]. cbn.
        fold w1. fold backend_run. by rewrite Hres.
    + cbn. split; [|split; [done|done]].
      rewrite app_comm_cons. apply Forall_app. split; [done|].
      by apply Forall_singleton.
  - cbn. split; [done|]. split; [done|done].
Qed.

(** ** Transfer: the checks of [download] *)

(** C7, as the code has it: with a backend that has [_download], a source of
    another scheme fails with [NotImplementedError] whatever the destination,
    and nothing is transferred or copied; with a source of the backend's
    scheme, a destination of the backend's scheme and that scheme not
    "local", [download] calls [copy] and returns 0 when [copy] returns (its
    error otherwise). *)
Theorem download_scheme_checks {Ext} (self : BaseTree Ext)
    (uuids : nat → string) (from_info to_info : Location)
    (jobs_ : option nat) (sched : list Event) (w : World Ext) :
  is_Some (_download self) →
  (loc_scheme from_info ≠ scheme self →
   download self uuids from_info to_info jobs_ sched w
   = Some (Err NotImplementedError, w))
  ∧ (loc_scheme from_info = scheme self →
     loc_scheme to_info = scheme self →
     scheme self ≠ "local" →
     (∀ w', copy self from_info to_info w = (Ok tt, w') →
            download self uuids from_info to_info jobs_ sched w
            = Some (Ok (Some 0%Z), w'))
     ∧ (∀ e w', copy self from_info to_info w = (Err e, w') →
                download self uuids from_info to_info jobs_ sched w
                = Some (Err e, w'))).
Proof.
  intros [dl Hdl]. unfold download. rewrite Hdl. split.
  - intros Hne. by rewrite bool_decide_eq_false_2.
  - intros Hfrom Hto Hlocal.
    rewrite (bool_decide_eq_true_2 _ Hfrom), (bool_decide_eq_true_2 _ Hto),
      (bool_decide_eq_false_2 _ Hlocal). cbn.
    split.
    + intros w' ->. done.
    + intros e w' ->. done.
Qed.

(** ** Transfer: the worker pool of [_download_dir] *)

Section FutureUpdates.
(** A worker or [cancel] changes one unfinished future into [x]. *)
Variables (fs : list FutureState) (i : nat) (old x : FutureState).
Hypothesis Hold : fs !! i = Some old.
Hypothesis Hunfinished : is_unfinished old = true.

Lemma update_keeps_finished j r :
  fs !! j = Some (Finished r) → <[i := x]> fs !! j = Some (Finished r).
Proof.
  intros Hj. rewrite list_lookup_insert_ne; [done|].
  intros ->. rewrite Hold in Hj. inversion Hj; subst. done.
Qed.

Lemma update_lookup j f :
  <[i := x]> fs !! j = Some f → f = x ∨ fs !! j = Some f.
Proof.
  destruct (decide (i = j)) as [->|Hne].
  - destruct (decide (j < length fs)%nat).
    + rewrite list_lookup_insert_eq by done. intros [= <-]. by left.
    + rewrite list_insert_ge by lia. by right.
  - rewrite list_lookup_insert_ne by done. by right.
Qed.

Lemma settled_ok_update ys :
  settled_ok fs ys → settled_ok (<[i := x]> fs) ys.
Proof.
  intros H j Hj. apply update_keeps_finished. by apply H.
Qed.

Lemma failed_first_update ys exc :
  failed_first fs ys exc → failed_first (<[i := x]> fs) ys exc.
Proof.
  intros (k & ys' & -> & Hk & Hok). exists k, ys'.
  split; [done|]. split; [by apply update_keeps_finished|].
  by apply settled_ok_update.
Qed.

Lemma all_succeeded_update n :
  all_succeeded n fs → all_succeeded n (<[i := x]> fs).
Proof.
  intros H j Hj. apply update_keeps_finished. by apply H.
Qed.

Lemma none_pending_below_update k :
  x ≠ Pending → none_pending_below k fs →
  none_pending_below k (<[i := x]> fs).
Proof.
  intros Hx H j Hj Hp. apply update_lookup in Hp as [Hp|Hp]; [done|].
  by apply (H j Hj).
Qed.

Lemma none_cancelled_update :
  x ≠ Cancelled → none_cancelled fs → none_cancelled (<[i := x]> fs).
Proof.
  intros Hx H j Hp. apply update_lookup in Hp as [Hp|Hp]; [done|].
  by apply (H j).
Qed.
End FutureUpdates.

Lemma existsb_lookup {A} (p : A → bool) (l : list A) :
  existsb p l = true →
  ∃ i a, l !! i = Some a ∧ p a = true ∧ existsb p (take i l) = false.
Proof.
  induction l as [|a l IH]; [done|]. cbn [existsb].
  destruct (p a) eqn:Hp; cbn.
  - intros _. by exists 0%nat, a.
  - intros (i & b & Hi & Hb & Hpre)%IH. exists (S i), b.
    split; [done|]. split; [done|]. cbn. by rewrite Hp.
Qed.

Lemma forallb_exists_false {A} (p : A → bool) (l : list A) :
  forallb p l = false → ∃ a, In a l ∧ p a = false.
Proof.
  induction l as [|a l IH]; [done|]. cbn.
  destruct (p a) eqn:Hp; cbn.
  - intros (b & Hb & Hpb)%IH. exists b. auto.
  - intros _. exists a. auto.
Qed.

Lemma existsb_false_lookup {A} (p : A → bool) (l : list A) i a :
  existsb p l = false → l !! i = Some a → p a = false.
Proof.
  revert i. induction l as [|b l IH]; intros i; [done|]. cbn [existsb].
  intros [Hb Hl]%orb_false_iff. destruct i as [|i]; cbn.
  - by intros [= <-].
  - by apply IH.
Qed.

Lemma weight_update (fs : list FutureState) i old x :
  fs !! i = Some old →
  (futures_weight (<[i := x]> fs) + future_weight old
   = futures_weight fs + future_weight x)%nat.
Proof.
  revert i. induction fs as [|f fs IH]; intros i Hi; [done|].
  destruct i as [|i].
  - cbn in Hi. inversion Hi; subst. cbn. lia.
  - cbn in Hi. specialize (IH i Hi).
    change (<[S i:=x]> (f :: fs)) with (f :: <[i:=x]> fs).
    cbn [futures_weight]. lia.
Qed.

Lemma weight_app (fs gs : list FutureState) :
  futures_weight (fs ++ gs) = (futures_weight fs + futures_weight gs)%nat.
Proof. induction fs as [|f fs IH]; cbn; [done|]. rewrite IH. lia. Qed.

Lemma unyielded_bound n ys : (length (unyielded n ys) <= n)%nat.
Proof.
  unfold unyielded. etrans; [apply length_filter|]. by rewrite length_seq.
Qed.

Lemma unyielded_yield n ys i :
  (i < n)%nat → i ∉ ys →
  (length (unyielded n (i :: ys)) < length (unyielded n ys))%nat.
Proof.
  intros Hi Hfresh. unfold unyielded.
  assert (seq 0 n = seq 0 i ++ i :: seq (S i) (n - S i)) as ->.
  { replace n with (i + (1 + (n - S i)))%nat at 1 by lia.
    rewrite seq_app. cbn. done. }
  rewrite !filter_app, !filter_cons, !length_app.
  rewrite decide_False by (intros H; apply H; apply elem_of_cons; by left).
  rewrite decide_True by done. cbn.
  assert (∀ l, (length (filter (fun j => j ∉ i :: ys) l)
                <= length (filter (fun j => j ∉ ys) l))%nat) as Hle.
  { induction l as [|a l IHl]; [done|]. rewrite !filter_cons.
    destruct (decide (a ∉ i :: ys)) as [Ha|Ha].
    - rewrite decide_True; [cbn; lia|].
      intros H. apply Ha. apply elem_of_cons. by right.
    - case_decide; cbn; lia. }
  pose proof (Hle (seq 0 i)). pose proof (Hle (seq (S i) (n - S i))). lia.
Qed.

Section PoolRun.
Context {Ext : Type} (self : BaseTree Ext).
Variable uuids : nat → string.
Variables from_info to_info : Location.
Variable from_infos : list Location.
Variable max_workers : nat.

(** The executor has at least one worker, and [walk_files] lists files
    below the directory it walks. *)
Hypothesis Hworkers : (0 < max_workers)%nat.
Hypothesis Hbelow :
  Forall (fun info => is_Some (relative_to info from_info)) from_infos.

#[local] Abbreviation n := (length from_infos).
#[local] Abbreviation step :=
  (pool_step self uuids from_info to_info from_infos max_workers).
#[local] Abbreviation run :=
  (pool_run self uuids from_info to_info from_infos max_workers).

Lemma member_to_info_below k info :
  from_infos !! k = Some info →
  is_Some (member_to_info from_info to_info info).
Proof.
  intros Hk. unfold member_to_info.
  destruct (proj1 (Forall_lookup _ _) Hbelow k info Hk) as [r ->]. by eexists.
Qed.

Lemma pool_inv_worker (w w' : World Ext) fs ys m i old x :
  fs !! i = Some old → is_unfinished old = true →
  x ≠ Pending → x ≠ Cancelled →
  pool_inv n (mkPool w fs ys m) →
  pool_inv n (mkPool w' (<[i := x]> fs) ys m).
Proof.
  intros Hold Hun Hx1 Hx2. unfold pool_inv. cbn.
  rewrite length_insert.
  destruct m as [k| |exc k|[[]|exc]|[[]|exc]].
  - intros (? & ? & ? & ?). eauto using none_cancelled_update.
  - intros (? & ? & ?).
    eauto using none_cancelled_update, settled_ok_update.
  - intros (? & ? & ?).
    eauto using failed_first_update, none_pending_below_update.
  - intros (? & ?). eauto using all_succeeded_update.
  - intros (? & ? & ?).
    eauto using failed_first_update, none_pending_below_update.
  - intros (? & ?). eauto using all_succeeded_update.
  - intros (Hlen & ? & Hall). exfalso.
    destruct (Hall i) as (f & Hf & Hfin).
    + rewrite <- Hlen. by eapply lookup_lt_Some.
    + rewrite Hold in Hf. inversion Hf; subst. by rewrite Hun in Hfin.
Qed.

Lemma pool_inv_step ev (st st' : Pool Ext) :
  pool_inv n st → step ev st = Some st' → pool_inv n st'.
Proof.
  destruct st as [w fs ys m]. intros Hinv Hstep.
  destruct ev as [|i|i|i].
  - (* the calling thread moves *)
    destruct m as [k| |exc k|r|r]; cbn in Hstep.
    + destruct Hinv as (Hlen & Hk & Hys & Hnc). cbn in *.
      destruct (from_infos !! k) as [info|] eqn:Hinfo.
      * destruct (member_to_info_below k info Hinfo) as [to_i Hto].
        rewrite Hto in Hstep. inversion Hstep; subst st'. clear Hstep.
        unfold pool_inv. cbn. rewrite length_app. cbn.
        apply lookup_lt_Some in Hinfo.
        split; [lia|]. split; [lia|]. split; [done|].
        intros j Hj. apply lookup_app_Some in Hj as [Hj|[_ Hj]].
        -- by apply (Hnc j).
        -- by destruct (j - length fs)%nat as [|[|?]].
      * inversion Hstep; subst st'. clear Hstep.
        apply lookup_ge_None in Hinfo.
        unfold pool_inv. cbn. split; [lia|]. split; [|done].
        subst ys. intros j Hj. by apply elem_of_nil in Hj.
    + destruct Hinv as (Hlen & Hok & Hnc). cbn in *.
      destruct (forallb _ _) eqn:Hall; [|done].
      inversion Hstep; subst st'. clear Hstep.
      unfold pool_inv. cbn. split; [done|].
      intros j Hj. apply Hok.
      rewrite forallb_forall in Hall.
      specialize (Hall j). rewrite bool_decide_eq_true in Hall.
      apply Hall. apply in_seq. lia.
    + destruct Hinv as (Hlen & Hfail & Hnp). cbn in *.
      destruct (fs !! k) as [entry|] eqn:Hentry.
      * inversion Hstep; subst st'. clear Hstep.
        unfold pool_inv. cbn. rewrite length_insert.
        destruct (decide (entry = Pending)) as [->|Hne].
        -- split; [done|]. split.
           ++ eapply failed_first_update; [exact Hentry|done|done].
           ++ intros j Hj Hp. destruct (decide (j = k)) as [->|Hjk].
              ** apply lookup_lt_Some in Hentry.
                 rewrite list_lookup_insert_eq in Hp by done. done.
              ** rewrite list_lookup_insert_ne in Hp by done.
                 apply (Hnp j); [lia|done].
        -- assert (cancel entry = entry) as -> by by destruct entry.
           rewrite list_insert_id by done.
           split; [done|]. split; [done|].
           intros j Hj Hp. destruct (decide (j = k)) as [->|Hjk].
           ++ congruence.
           ++ apply (Hnp j); [lia|done].
      * inversion Hstep; subst st'. clear Hstep.
        apply lookup_ge_None in Hentry.
        unfold pool_inv. cbn. split; [done|]. split; [done|].
        intros j Hj. apply Hnp. lia.
    + destruct (existsb is_unfinished fs) eqn:Hex; [done|].
      inversion Hstep; subst st'. clear Hstep.
      unfold pool_inv in *. cbn in *.
      destruct r as [[]|exc]; [done|].
      destruct Hinv as (Hlen & Hfail & _).
      split; [done|]. split; [done|].
      intros j Hj. destruct (lookup_lt_is_Some_2 fs j) as [f Hf]; [lia|].
      exists f. split; [done|]. by eapply existsb_false_lookup.
    + done.
  - (* [as_completed] yields future [i] *)
    destruct m as [k| |exc k|r|r]; cbn in Hstep; try done.
    destruct Hinv as (Hlen & Hok & Hnc). cbn in *.
    case_bool_decide as Hin; [done|].
    destruct (fs !! i) as [[| |[[]|exc]|]|] eqn:Hi; try done;
      inversion Hstep; subst st'; clear Hstep; unfold pool_inv; cbn.
    + split; [done|]. split; [|done].
      intros j [->|Hj]%elem_of_cons; [done|by apply Hok].
    + split; [done|]. split; [by exists i, ys|]. intros j Hj. lia.
    + by destruct (Hnc i).
  - (* a worker starts future [i] *)
    assert (∃ old, fs !! i = Some old ∧ is_unfinished old = true
                   ∧ st' = mkPool w (<[i := Running]> fs) ys m)
      as (old & Hold & Hun & ->).
    { destruct m; cbn in Hstep;
        destruct (fs !! i) as [[| | |]|] eqn:Hi; try done;
        destruct (existsb is_pending (take i fs)); try done;
        case_decide; try done; inversion Hstep; by exists Pending. }
    by eapply pool_inv_worker.
  - (* a worker finishes future [i] *)
    assert (∃ old r w', fs !! i = Some old ∧ is_unfinished old = true
                   ∧ st' = mkPool w' (<[i := Finished r]> fs) ys m)
      as (old & r & w' & Hold & Hun & ->).
    { destruct m; cbn in Hstep;
        destruct (fs !! i) as [[| | |]|] eqn:Hi; try done;
        destruct (from_infos !! i); try done;
        destruct (member_to_info _ _ _); try done;
        inversion Hstep; by eexists Running, _, _. }
    by eapply pool_inv_worker.
Qed.
End PoolRun.

Section PoolLiveness.
Context {Ext : Type} (self : BaseTree Ext).
Variable uuids : nat → string.
Variables from_info to_info : Location.
Variable from_infos : list Location.
Variable max_workers : nat.
Hypothesis Hworkers : (0 < max_workers)%nat.
Hypothesis Hbelow :
  Forall (fun info => is_Some (relative_to info from_info)) from_infos.

#[local] Abbreviation n := (length from_infos).
#[local] Abbreviation step :=
  (pool_step self uuids from_info to_info from_infos max_workers).
#[local] Abbreviation run :=
  (pool_run self uuids from_info to_info from_infos max_workers).

Lemma pool_measure_worker (w w' : World Ext) fs ys m i old x :
  fs !! i = Some old → (future_weight x < future_weight old)%nat →
  (pool_measure n (mkPool w' (<[i := x]> fs) ys m)
   < pool_measure n (mkPool w fs ys m))%nat.
Proof.
  intros Hold Hlt. unfold pool_measure. cbn. rewrite length_insert.
  pose proof (weight_update fs i old x Hold). lia.
Qed.

Lemma pool_measure_step ev (st st' : Pool Ext) :
  pool_inv n st → step ev st = Some st' →
  (pool_measure n st' < pool_measure n st)%nat.
Proof.
  destruct st as [w fs ys m]. intros Hinv Hstep.
  destruct ev as [|i|i|i].
  - destruct m as [k| |exc k|r|r]; cbn in Hstep.
    + destruct Hinv as (Hlen & Hk & Hys & Hnc). cbn in *.
      destruct (from_infos !! k) as [info|] eqn:Hinfo.
      * apply lookup_lt_Some in Hinfo.
        destruct (member_to_info _ _ info); inversion Hstep; subst st';
          unfold pool_measure; cbn; rewrite ?weight_app, ?length_app; cbn; lia.
      * apply lookup_ge_None in Hinfo. inversion Hstep; subst st'.
        unfold pool_measure. cbn. pose proof (unyielded_bound n ys). lia.
    + destruct (forallb _ _); [|done]. inversion Hstep; subst st'.
      unfold pool_measure. cbn. lia.
    + destruct Hinv as (Hlen & _). cbn in *.
      destruct (fs !! k) as [entry|] eqn:Hentry.
      * inversion Hstep; subst st'. unfold pool_measure. cbn.
        rewrite length_insert. apply lookup_lt_Some in Hentry as Hlt.
        pose proof (weight_update fs k entry (cancel entry) Hentry).
        assert (future_weight (cancel entry) <= future_weight entry)%nat
          by (destruct entry; cbn; lia).
        lia.
      * inversion Hstep; subst st'. unfold pool_measure. cbn. lia.
    + destruct (existsb is_unfinished fs); [done|].
      inversion Hstep; subst st'. unfold pool_measure. cbn. lia.
    + done.
  - destruct m as [k| |exc k|r|r]; cbn in Hstep; try done.
    destruct Hinv as (Hlen & _). cbn in *.
    case_bool_decide as Hin; [done|].
    destruct (fs !! i) as [[| |[[]|exc]|]|] eqn:Hi; try done;
      inversion Hstep; subst st'; unfold pool_measure; cbn.
    + apply lookup_lt_Some in Hi.
      pose proof (unyielded_yield n ys i ltac:(lia) Hin). lia.
    + lia.
    + lia.
  - assert (fs !! i = Some Pending
            ∧ st' = mkPool w (<[i := Running]> fs) ys m) as [Hold ->].
    { destruct m; cbn in Hstep;
        destruct (fs !! i) as [[| | |]|] eqn:Hi; try done;
        destruct (existsb is_pending (take i fs)); try done;
        case_decide; try done; by inversion Hstep. }
    eapply pool_measure_worker; [exact Hold|]. cbn. lia.
  - assert (∃ r w', fs !! i = Some Running
                    ∧ st' = mkPool w' (<[i := Finished r]> fs) ys m)
      as (r & w' & Hold & ->).
    { destruct m; cbn in Hstep;
        destruct (fs !! i) as [[| | |]|] eqn:Hi; try done;
        destruct (from_infos !! i); try done;
        destruct (member_to_info _ _ _); try done;
        inversion Hstep; by eexists _, _. }
    eapply pool_measure_worker; [exact Hold|]. cbn. lia.
Qed.

(** With an unfinished future in the pool, a worker can move. *)
Lemma pool_progress_worker (w : World Ext) fs ys m :
  length fs = n →
  existsb is_unfinished fs = true →
  ∃ ev st', step ev (mkPool w fs ys m) = Some st'.
Proof.
  intros Hlen Hun.
  destruct (existsb is_running fs) eqn:Hrun.
  - apply existsb_lookup in Hrun as (i & f & Hi & Hf & _).
    destruct f; try done.
    destruct (lookup_lt_is_Some_2 from_infos i) as [info Hinfo].
    { rewrite <- Hlen. by eapply lookup_lt_Some. }
    assert (is_Some (member_to_info from_info to_info info)) as [to_i Hto].
    { unfold member_to_info.
      destruct (proj1 (Forall_lookup _ _) Hbelow i info Hinfo) as [r ->].
      by eexists. }
    exists (WorkerFinish i). cbn. rewrite Hi, Hinfo, Hto. by eexists.
  - assert (existsb is_pending fs = true) as Hpend.
    { clear Hlen. induction fs as [|f fs' IH]; [done|]. cbn in *.
      unfold is_unfinished in Hun.
      destruct (is_running f); [done|]. destruct (is_pending f); [done|].
      cbn in *. by apply IH. }
    apply existsb_lookup in Hpend as (i & f & Hi & Hf & Hfirst).
    destruct f; try done.
    assert (filter (fun f => is_running f = true) fs = []) as Hnone.
    { clear -Hrun. induction fs as [|f fs' IH]; [done|]. cbn in Hrun.
      apply orb_false_iff in Hrun as [Hf Hrun].
      rewrite filter_cons, decide_False by congruence. by apply IH. }
    exists (WorkerStart i). cbn. rewrite Hi, Hfirst, Hnone. cbn.
    rewrite decide_True by done. by eexists.
Qed.

(** With every future settled and one not yet yielded, [as_completed]
    yields. *)
Lemma pool_progress_yield (w : World Ext) fs ys :
  existsb is_unfinished fs = false →
  forallb (fun i => bool_decide (i ∈ ys)) (seq 0 (length fs)) = false →
  ∃ ev st', step ev (mkPool w fs ys Collecting) = Some st'.
Proof.
  intros Hun Hall.
  assert (∃ i, (i < length fs)%nat ∧ i ∉ ys) as (i & Hi & Hfresh).
  { destruct (forallb_exists_false _ _ Hall) as (i & Hin & Hb).
    exists i. apply in_seq in Hin. split; [lia|].
    by apply bool_decide_eq_false in Hb. }
  destruct (lookup_lt_is_Some_2 fs i Hi) as [f Hf].
  pose proof (existsb_false_lookup _ _ _ _ Hun Hf) as Hsettled.
  exists (Yield i). cbn. rewrite bool_decide_eq_false_2 by done. rewrite Hf.
  destruct f as [| |[[]|exc]|]; try done; by eexists.
Qed.

(** While the call has not returned, some event can happen: the pool does
    not get stuck. *)
Lemma pool_progress (st : Pool Ext) :
  pool_inv n st → (∀ r, main st ≠ Returned r) →
  ∃ ev st', step ev st = Some st'.
Proof.
  destruct st as [w fs ys m]. intros Hinv Hmain. cbn in Hmain.
  assert (m = Collecting ∨ (∃ r, m = ShuttingDown r) →
          length fs = n) as Hlen.
  { intros [->|[r ->]]; unfold pool_inv in Hinv; cbn in Hinv.
    - tauto.
    - destruct r as [[]|?]; tauto. }
  destruct m as [k| |exc k|r|r].
  - exists MainStep. cbn.
    destruct (from_infos !! k); [|by eexists].
    destruct (member_to_info _ _ _); by eexists.
  - destruct (existsb is_unfinished fs) eqn:Hun.
    + apply (pool_progress_worker w fs ys Collecting); auto.
    + destruct (forallb (fun i => bool_decide (i ∈ ys)) (seq 0 (length fs)))
        eqn:Hall.
      * exists MainStep. cbn. rewrite Hall. by eexists.
      * apply (pool_progress_yield w fs ys); auto.
  - exists MainStep. cbn. destruct (fs !! k); by eexists.
  - destruct (existsb is_unfinished fs) eqn:Hun.
    + apply (pool_progress_worker w fs ys (ShuttingDown r)); eauto.
    + exists MainStep. cbn. rewrite Hun. by eexists.
  - by destruct (Hmain r).
Qed.
End PoolLiveness.

Section PoolRuns.
Context {Ext : Type} (self : BaseTree Ext).
Variable uuids : nat → string.
Variables from_info to_info : Location.
Variable from_infos : list Location.
Variable max_workers : nat.
Hypothesis Hworkers : (0 < max_workers)%nat.
Hypothesis Hbelow :
  Forall (fun info => is_Some (relative_to info from_info)) from_infos.

#[local] Abbreviation n := (length from_infos).
#[local] Abbreviation step :=
  (pool_step self uuids from_info to_info from_infos max_workers).
#[local] Abbreviation run :=
  (pool_run self uuids from_info to_info from_infos max_workers).

Lemma pool_run_app s1 s2 (st : Pool Ext) :
  run (s1 ++ s2) st
  = match run s1 st with Some st1 => run s2 st1 | None => None end.
Proof.
  revert st. induction s1 as [|ev s1 IH]; intros st; [done|].
  cbn. destruct (step ev st); [apply IH|done].
Qed.

Lemma pool_run_inv sched (st st' : Pool Ext) :
  pool_inv n st → run sched st = Some st' → pool_inv n st'.
Proof.
  revert st. induction sched as [|ev sched IH]; intros st Hinv Hrun.
  - cbn in Hrun. by inversion Hrun; subst.
  - cbn in Hrun. destruct (step ev st) as [st1|] eqn:Hstep; [|done].
    eapply IH; [|exact Hrun]. eapply pool_inv_step; eauto.
Qed.

Lemma pool_run_measure sched (st st' : Pool Ext) :
  pool_inv n st → run sched st = Some st' →
  (length sched + pool_measure n st' <= pool_measure n st)%nat.
Proof.
  revert st. induction sched as [|ev sched IH]; intros st Hinv Hrun.
  - cbn in Hrun. inversion Hrun; subst. cbn. lia.
  - cbn in Hrun. destruct (step ev st) as [st1|] eqn:Hstep; [|done].
    assert (pool_measure n st1 < pool_measure n st)%nat
      by (eapply pool_measure_step; eauto).
    assert (pool_inv n st1) as Hinv1 by (eapply pool_inv_step; eauto).
    specialize (IH st1 Hinv1 Hrun). cbn. lia.
Qed.

(** Every state of a run can be continued until the call returns. *)
Lemma pool_run_completes (st : Pool Ext) :
  pool_inv n st →
  ∃ sched st' r, run sched st = Some st' ∧ main st' = Returned r.
Proof.
  remember (pool_measure n st) as m eqn:Hm.
  revert st Hm. induction m as [m IH] using lt_wf_ind. intros st -> Hinv.
  destruct (main st) as [k| |exc k|r|r] eqn:Hmain.
  5:{ exists [], st, r. by split. }
  all: assert (∃ ev st1, step ev st = Some st1) as (ev & st1 & Hstep)
         by (eapply pool_progress; eauto; intros r'; congruence);
       assert (pool_measure n st1 < pool_measure n st)%nat as Hlt
         by (eapply pool_measure_step; eauto);
       assert (pool_inv n st1) as Hinv1 by (eapply pool_inv_step; eauto);
       destruct (IH _ Hlt st1 eq_refl Hinv1) as (sched & st' & r' & Hrun & Hret);
       exists (ev :: sched), st', r'; cbn; rewrite Hstep; by split.
Qed.

(** A future a worker has started stays started: no event takes it back. *)
Lemma started_step ev (st st' : Pool Ext) i :
  step ev st = Some st' → started (futures st) i → started (futures st') i.
Proof.
  destruct st as [w fs ys m]. cbn. intros Hstep Hstarted.
  assert (∀ j x, started fs i → started (<[j := x]> fs) i ∨ (j = i)) as Hupd.
  { intros j x Hs. destruct (decide (j = i)) as [->|Hne]; [by right|left].
    unfold started. by rewrite list_lookup_insert_ne. }
  destruct ev as [|j|j|j].
  - destruct m as [k| |exc k|r|r]; cbn in Hstep.
    + destruct (from_infos !! k); [destruct (member_to_info _ _ _)|];
        inversion Hstep; subst; cbn; try done.
      unfold started in *.
      destruct Hstarted as [Hs|[r Hs]]; [left|right; exists r];
        by apply lookup_app_l_Some.
    + destruct (forallb _ _); by inversion Hstep; subst.
    + destruct (fs !! k) as [entry|] eqn:Hk; inversion Hstep; subst; cbn;
        [|done].
      destruct (Hupd k (cancel entry) Hstarted) as [? | ->]; [done|].
      assert (cancel entry = entry) as ->.
      { destruct Hstarted as [Hs|[r Hs]]; rewrite Hk in Hs;
          inversion Hs; by subst. }
      by rewrite list_insert_id.
    + destruct (existsb _ _); by inversion Hstep; subst.
    + done.
  - destruct m as [k| |exc k|r|r]; cbn in Hstep; try done.
    case_bool_decide; [done|].
    destruct (fs !! j) as [[| |[[]|exc]|]|]; by inversion Hstep; subst.
  - assert (fs !! j = Some Pending ∧ futures st' = <[j := Running]> fs)
      as [Hj Heq].
    { destruct m; cbn in Hstep;
        destruct (fs !! j) as [[| | |]|] eqn:Hj; try done;
        destruct (existsb is_pending (take j fs)); try done;
        case_decide; try done; by inversion Hstep. }
    rewrite Heq.
    destruct (Hupd j Running Hstarted) as [? | ->]; [done|].
    destruct Hstarted as [Hs|[r Hs]]; congruence.
  - assert (fs !! j = Some Running
            ∧ ∃ r, futures st' = <[j := Finished r]> fs) as [Hj [r Heq]].
    { destruct m; cbn in Hstep;
        destruct (fs !! j) as [[| | |]|] eqn:Hj; try done;
        destruct (from_infos !! j); try done;
        destruct (member_to_info _ _ _); try done;
        inversion Hstep; split; try done; by eexists. }
    rewrite Heq.
    destruct (Hupd j (Finished r) Hstarted) as [? | ->]; [done|].
    right. exists r. apply list_lookup_insert_eq. by eapply lookup_lt_Some.
Qed.

Lemma started_by_worker (st st' : Pool Ext) i :
  step (WorkerStart i) st = Some st' → started (futures st') i.
Proof.
  destruct st as [w fs ys m]. intros Hstep. left.
  destruct m; cbn in Hstep;
    destruct (fs !! i) as [[| | |]|] eqn:Hi; try done;
    destruct (existsb is_pending (take i fs)); try done;
    case_decide; try done; inversion Hstep; subst; cbn;
    apply list_lookup_insert_eq; by eapply lookup_lt_Some.
Qed.

(** The futures a schedule starts are started at its end; so a future that
    is cancelled at the end was never started. *)
Lemma pool_run_started sched (st st' : Pool Ext) i :
  run sched st = Some st' →
  started (futures st) i ∨ WorkerStart i ∈ sched →
  started (futures st') i.
Proof.
  revert st. induction sched as [|ev sched IH]; intros st Hrun Hs.
  - cbn in Hrun. inversion Hrun; subst. destruct Hs as [?|Hin]; [done|].
    by apply elem_of_nil in Hin.
  - cbn in Hrun. destruct (step ev st) as [st1|] eqn:Hstep; [|done].
    apply (IH st1 Hrun). destruct Hs as [Hs|Hin].
    + left. by eapply started_step.
    + apply elem_of_cons in Hin as [Heq|Hin]; [|by right].
      subst ev. left. by eapply started_by_worker.
Qed.

Lemma pool_init_inv (w : World Ext) : pool_inv n (pool_init max_workers w).
Proof.
  unfold pool_init, pool_inv. rewrite decide_False by lia. cbn.
  split; [done|]. split; [lia|]. split; [done|]. by intros j.
Qed.

Lemma pool_init_measure (w : World Ext) :
  pool_measure n (pool_init max_workers w) = (5 * n + 4)%nat.
Proof.
  unfold pool_init, pool_measure. rewrite decide_False by lia. cbn. lia.
Qed.

(** Once the cancelling loop is over, no pending future is left for a
    worker to start. *)
Lemma pool_no_start_after_cancel (st : Pool Ext) exc i :
  pool_inv n st → main st = ShuttingDown (Err exc) →
  step (WorkerStart i) st = None.
Proof.
  destruct st as [w fs ys m]. intros Hinv Hmain. cbn in Hmain. subst m.
  destruct Hinv as (Hlen & _ & Hnp). cbn in *.
  destruct (fs !! i) as [[| | |]|] eqn:Hi; try done.
  exfalso. apply (Hnp i); [|done].
  rewrite <- Hlen. by eapply lookup_lt_Some.
Qed.
End PoolRuns.

(** C1: take a directory whose members lie below it and an executor with at
    least one worker.  In every run of the pool: when [_download_dir] returns
    without error, every member transfer finished without error; when it
    raises, it raises the error of the first failed future [as_completed]
    yielded (all futures yielded before had succeeded), whatever the other
    futures' results, and by then every future is finished or cancelled (the
    ones in flight ran to completion); from the end of the cancelling loop on
    no pending future is left, so no further transfer starts, and a cancelled
    future was never started by a worker.  And the call
    does return: every run has at most [5 * n + 4] events and can be
    continued to a run on which [_download_dir] returns. *)
Theorem _download_dir_first_error_wins {Ext} (self : BaseTree Ext)
    (uuids : nat → string) (from_info to_info : Location)
    (jobs_ : option nat) (w : World Ext) :
  let from_infos := walk_files self from_info w in
  let n := length from_infos in
  let max_workers := max_workers_of self jobs_ in
  let step := pool_step self uuids from_info to_info from_infos max_workers in
  let run sched :=
    pool_run self uuids from_info to_info from_infos max_workers sched
             (pool_init max_workers w) in
  (0 < max_workers)%nat →
  Forall (fun info => is_Some (relative_to info from_info)) from_infos →
  ∀ sched st, run sched = Some st →
    (main st = Returned (Ok tt) → all_succeeded n (futures st))
    ∧ (∀ exc, main st = Returned (Err exc) →
              failed_first (futures st) (yielded st) exc
              ∧ all_settled n (futures st))
    ∧ (∀ exc, main st = ShuttingDown (Err exc) →
              failed_first (futures st) (yielded st) exc
              ∧ ∀ i, step (WorkerStart i) st = None)
    ∧ (∀ i, futures st !! i = Some Cancelled → WorkerStart i ∉ sched)
    ∧ (length sched <= 5 * n + 4)%nat
    ∧ ∃ sched' r w',
        _download_dir self uuids from_info to_info jobs_ (sched ++ sched') w
        = Some (r, w').
Proof.
  intros from_infos n max_workers step run Hworkers Hbelow sched st Hrun.
  assert (pool_inv n (pool_init max_workers w)) as Hinit
    by by apply pool_init_inv.
  assert (pool_inv n st) as Hinv by (eapply pool_run_inv; eauto).
  split; [|split; [|split; [|split; [|split]]]].
  - intros Hmain. unfold pool_inv in Hinv. rewrite Hmain in Hinv. tauto.
  - intros exc Hmain. unfold pool_inv in Hinv. rewrite Hmain in Hinv. tauto.
  - intros exc Hmain. split.
    + unfold pool_inv in Hinv. rewrite Hmain in Hinv. tauto.
    + intros i. by eapply pool_no_start_after_cancel.
  - intros i Hcancelled Hin.
    assert (started (futures st) i) as [Hs|[r Hs]]
      by (eapply pool_run_started; eauto); congruence.
  - assert (length sched + pool_measure n st
            <= pool_measure n (pool_init max_workers w))%nat as Hm
      by (eapply pool_run_measure; eauto).
    subst n. rewrite pool_init_measure in Hm by done. lia.
  - assert (∃ sched' st' r,
              pool_run self uuids from_info to_info from_infos max_workers
                       sched' st = Some st' ∧ main st' = Returned r)
      as (sched' & st' & r & Hrun' & Hret)
      by (eapply pool_run_completes; eauto).
    exists sched', r, (world st').
    unfold _download_dir. fold from_infos. fold max_workers.
    rewrite pool_run_app. fold (run sched). rewrite Hrun, Hrun', Hret. done.
Qed.

(** ** The model at concrete inputs *)

Lemma demo_download_writes_only_target :
  backend_writes_only_target demo_download.
Proof.
  intros from_info target w. unfold writes_only, demo_download.
  destruct (assoc from_info (remote_files (ext w))) as [content|].
  - case_bool_decide; cbn; repeat constructor; intros p Hp; cbn;
      by rewrite lookup_insert_ne.
  - cbn. by repeat constructor.
Qed.

(** C1 on a two-member directory and one worker: the first transfer fails,
    the second, still pending, is cancelled, and the call raises the first
    transfer's error. *)
Lemma _download_dir_first_error_wins_witness :
  ∃ st,
    pool_run (demo_tree true) (fun _ => "u") (demo_loc ["data"])
             (local_loc ["out"])
             (walk_files (demo_tree true) (demo_loc ["data"]) broken_world)
             1 failing_schedule (pool_init 1 broken_world)
    = Some st
    ∧ main st = Returned (Err (BackendError "connection reset"))
    ∧ futures st = [Finished (Err (BackendError "connection reset")); Cancelled]
    ∧ failed_first (futures st) (yielded st) (BackendError "connection reset")
    ∧ all_settled 2 (futures st).
Proof.
  eexists. split; [vm_compute; reflexivity|].
  split; [reflexivity|]. split; [reflexivity|].
  refine (proj1 (proj2 (_download_dir_first_error_wins (demo_tree true)
            (fun _ => "u") (demo_loc ["data"]) (local_loc ["out"]) None
            broken_world _ _ failing_schedule _ _)) _ _).
  - vm_compute. lia.
  - vm_compute. repeat constructor; by eexists.
  - vm_compute. reflexivity.
  - reflexivity.
Defined.

(** C2 on a download that breaks off after the first byte: the temporary
    file holds the partial object, the destination holds nothing, as
    before. *)
Lemma _download_file_atomic_witness :
  let run :=
    _download_file (demo_tree true) "u1" (demo_loc ["data"; "a"])
                   (local_loc ["out"; "a"]) broken_world in
  dl_result run = Err (BackendError "connection reset")
  ∧ file_at (dl_final run) ["out"; "a.u1.tmp"] = Some [Byte.x61]
  ∧ file_at (dl_final run) ["out"; "a"] = file_at broken_world ["out"; "a"]
  ∧ Forall (fun s => file_at s ["out"; "a"] = file_at broken_world ["out"; "a"])
           (dl_partial run).
Proof.
  cbv zeta. split; [by vm_compute|]. split; [by vm_compute|].
  destruct (_download_file_atomic (demo_tree true) "u1"
              (demo_loc ["data"; "a"]) (local_loc ["out"; "a"]) broken_world
              demo_download eq_refl demo_download_writes_only_target)
    as (_ & Hseen & Hfail & _).
  split; [|exact Hseen].
  apply (Hfail (BackendError "connection reset")). by vm_compute.
Defined.

(** C3 on the directory "data": listing "b" before "a" gives the same
    manifest and the same hash. *)
Lemma get_dir_hash_order_independent_witness :
  let swapped :=
    with_enumeration (demo_tree true)
      (fun _ _ => [demo_loc ["data"; "b"]; demo_loc ["data"; "a"]])
      (fun _ _ => []) in
  _collect_dir swapped (demo_loc ["data"]) demo_world
  = _collect_dir (demo_tree true) (demo_loc ["data"]) demo_world
  ∧ get_dir_hash swapped (demo_loc ["data"]) demo_world
    = get_dir_hash (demo_tree true) (demo_loc ["data"]) demo_world.
Proof.
  cbv zeta.
  apply (get_dir_hash_order_independent (demo_tree true) (demo_loc ["data"])
           demo_world).
  - split; vm_compute; repeat constructor; discriminate.
  - split; apply (bool_decide_unpack _); by vm_compute.
  - vm_compute. apply perm_swap.
  - vm_compute. constructor.
Defined.

(** C4 on a directory with a marker at its top. *)
Lemma get_dir_hash_rejects_ignore_marker_witness :
  get_dir_hash (demo_tree true) (demo_loc ["data"]) marked_world
  = (Err (DvcIgnoreInCollectedDirError (demo_loc ["data"])), marked_world).
Proof.
  destruct (get_dir_hash_rejects_ignore_marker (demo_tree true)
              (demo_loc ["data"]) marked_world
              (demo_loc ["data"; ".dvcignore"]))
    as [_ Hnamed].
  - apply (bool_decide_unpack _). by vm_compute.
  - by vm_compute.
  - destruct Hnamed as (before & fi & after & Hmem & Hfirst & Hname & Hres & Honly).
    + vm_compute. repeat constructor; by eexists.
    + rewrite Hres. rewrite Honly; [done|].
      intros fi'. vm_compute. intros Hin Hn.
      apply elem_of_cons in Hin as [->|Hin]; [discriminate|].
      apply elem_of_cons in Hin as [->|Hin]; [done|].
      by apply elem_of_nil in Hin.
Defined.

(** C5 on a directory the fingerprint cache still knows while the cache-store
    has lost its manifest: the hash is computed again and saved. *)
Lemma get_hash_recollects_lost_dir_witness :
  get_hash (demo_tree true) id (demo_loc ["data"]) stale_world
  = use_state (demo_tree true)
      (get_hash_compute (demo_tree true) id (demo_loc ["data"])) stale_world
  ∧ (get_hash (demo_tree true) id (demo_loc ["data"]) stale_world).1
    = Ok (Some (mkHashInfo (Some "md5") (Some "a=alpha.dir") None)).
Proof.
  split; [|by vm_compute].
  apply (get_hash_recollects_lost_dir (demo_tree true) id (demo_loc ["data"])
           stale_world (mkHashInfo (Some "md5") (Some "0123abcd.dir") None));
    by vm_compute.
Defined.

(** C6 on a file deleted while it is hashed: the hash is returned, the
    fingerprint cache stays empty. *)
Lemma get_hash_saves_only_if_exists_witness :
  get_hash (demo_tree true) delete_everything (demo_loc ["data"; "a"]) demo_world
  = (Ok (Some (mkHashInfo (Some "md5") (Some "alpha") None)),
     delete_everything demo_world)
  ∧ state_db (ext (delete_everything demo_world)) = [].
Proof.
  split; [|reflexivity].
  apply (get_hash_saves_only_if_exists (demo_tree true) delete_everything
           (demo_loc ["data"; "a"]) demo_world demo_world
           (mkHashInfo (Some "md5") (Some "alpha") None));
    by vm_compute.
Defined.

(** C7 on a source of another scheme and on a remote-to-remote copy. *)
Lemma download_scheme_checks_witness :
  download (demo_tree true) (fun _ => "u") (mkLoc "other" ["data"; "a"])
           (local_loc ["out"; "a"]) None [] demo_world
  = Some (Err NotImplementedError, demo_world)
  ∧ fst <$> download (demo_tree true) (fun _ => "u") (demo_loc ["data"; "a"])
                     (demo_loc ["data"; "c"]) None [] demo_world
    = Some (Ok (Some 0%Z)).
Proof.
  split.
  - destruct (download_scheme_checks (demo_tree true) (fun _ => "u")
                (mkLoc "other" ["data"; "a"]) (local_loc ["out"; "a"]) None []
                demo_world) as [Hmismatch _]; [by eexists|].
    apply Hmismatch. by vm_compute.
  - destruct (download_scheme_checks (demo_tree true) (fun _ => "u")
                (demo_loc ["data"; "a"]) (demo_loc ["data"; "c"]) None []
                demo_world) as [_ Hcopy]; [by eexists|].
    assert (scheme (demo_tree true) ≠ "local") as Hremote by by vm_compute.
    destruct (Hcopy eq_refl eq_refl Hremote) as [Hok _].
    erewrite Hok; [done|]. by vm_compute.
Defined.

(** C7 as stated fails: with a source of another scheme and a destination of
    the backend's own, non-local scheme, [download] raises
    [NotImplementedError] although [copy] would have succeeded; and a backend
    without [_download] answers a source of another scheme with
    [RemoteActionNotImplemented]. *)
Lemma download_cross_scheme_never_copies :
  let from_info := mkLoc "other" ["data"; "a"] in
  let to_info := demo_loc ["data"; "c"] in
  (loc_scheme from_info ≠ scheme (demo_tree true)
   ∧ loc_scheme to_info = scheme (demo_tree true)
   ∧ scheme (demo_tree true) ≠ "local"
   ∧ (copy (demo_tree true) from_info to_info foreign_world).1 = Ok tt
   ∧ download (demo_tree true) (fun _ => "u") from_info to_info None []
              foreign_world
     = Some (Err NotImplementedError, foreign_world))
  ∧ download (demo_tree false) (fun _ => "u") from_info
             (local_loc ["out"; "a"]) None [] foreign_world
    = Some (Err (RemoteActionNotImplemented "download" "demo"), foreign_world).
Proof. cbv zeta. repeat split; by vm_compute. Qed.

(** * Further properties *)

(** ** Reference GC *)

Lemma gc_loop_all_kept keep eb ea ec l refs n :
  Forall (fun ri => baseline_sha ri ∈ keep) l →
  foldl (gc_ref_step keep eb ea ec) (refs, n) l = (refs, n).
Proof.
  induction 1 as [|ri l Hri _ IH]; [done|].
  cbn [foldl]. unfold gc_ref_step at 2. by rewrite decide_True.
Qed.

Lemma gc_loop_subseteq keep eb ea ec l refs n :
  (foldl (gc_ref_step keep eb ea ec) (refs, n) l).1 ⊆ refs.
Proof.
  revert refs n. induction l as [|ri l IH]; intros refs n; [done|].
  cbn [foldl]. destruct (gc_ref_step keep eb ea ec (refs, n) ri) as [refs1 n1] eqn:E.
  etrans; [apply IH|].
  unfold gc_ref_step in E. case_decide; [by inversion E|].
  inversion E; subst. unfold remove_ref.
  etrans; [apply delete_subseteq|].
  repeat case_match; repeat (etrans; [apply delete_subseteq|]); done.
Qed.

(** X1: [gc] never fails: the stash indices it drops are always valid, since
    it drops them from the highest down; and it never reports more removed
    items than there are experiment references and queued entries. *)
Theorem gc_always_returns exp_refs repo ab at_ ac ws queued :
  ∃ n refs' stash',
    gc exp_refs repo ab at_ ac ws queued
    = Ok (n, mkRepo (brancher repo) (scm_rev repo) refs' stash')
    ∧ (n <= length (exp_refs (scm_refs repo)) + length (exp_stash repo))%nat
    ∧ refs' ⊆ scm_refs repo
    ∧ stash' `sublist_of` exp_stash repo.
Proof.
  destruct (decide (keep_revs repo ab at_ ac ws = ∅)) as [Hempty|Hne].
  - exists 0%nat, (scm_refs repo), (exp_stash repo).
    unfold gc. rewrite decide_True by done. destruct repo. cbn.
    split; [done|]. split; [lia|]. done.
  - rewrite gc_unfold by done. cbv zeta.
    eexists _, _, _. split; [reflexivity|].
    rewrite gc_loop_count. split; [|split].
    + pose proof (length_filter
        (fun r => baseline_sha r ∉ keep_revs repo ab at_ ac ws)
        (exp_refs (scm_refs repo))).
      cbn. lia.
    + apply gc_loop_subseteq.
    + apply sublist_filter.
Qed.

(** X2: when every experiment reference has a kept baseline, [gc] leaves the
    whole reference store as it is, the three exec pointers included, and
    only counts the queued entries it removes. *)
Theorem gc_all_kept_refs_unchanged exp_refs repo ab at_ ac ws queued :
  Forall (fun ri => baseline_sha ri ∈ keep_revs repo ab at_ ac ws)
         (exp_refs (scm_refs repo)) →
  ∃ stash',
    gc exp_refs repo ab at_ ac ws queued
    = Ok ((length (exp_stash repo) - length stash')%nat,
          mkRepo (brancher repo) (scm_rev repo) (scm_refs repo) stash').
Proof.
  intros Hkept.
  destruct (decide (keep_revs repo ab at_ ac ws = ∅)) as [Hempty|Hne].
  - exists (exp_stash repo). unfold gc. rewrite decide_True by done.
    rewrite Nat.sub_diag. by destruct repo.
  - rewrite gc_unfold by done. cbv zeta.
    rewrite gc_loop_all_kept by done. cbn. by eexists.
Qed.

Lemma gc_all_kept_refs_unchanged_witness :
  let repo :=
    demo_repo [(EXEC_BRANCH, SymRef R1)] [mkStashCommit "s0" "rev9"] in
  ∃ stash',
    gc demo_exp_refs_rev1 repo true false false true false
    = Ok ((length (exp_stash repo) - length stash')%nat,
          mkRepo (brancher repo) (scm_rev repo) (scm_refs repo) stash').
Proof.
  cbv zeta. apply gc_all_kept_refs_unchanged.
  apply (bool_decide_unpack _). by vm_compute.
Defined.

Lemma resolve_ref_mono fuel (refs refs0 : gmap string RefValue) name s :
  refs ⊆ refs0 →
  resolve_ref fuel refs name = Some s → resolve_ref fuel refs0 name = Some s.
Proof.
  intros Hsub. revert name. induction fuel as [|fuel IH]; intros name; cbn;
    destruct (refs !! name) as [[sha|target]|] eqn:Hname; try done;
    rewrite (lookup_weaken _ _ _ _ Hname Hsub); try done.
  apply IH.
Qed.

Lemma get_ref_truthy refs name follow s :
  get_ref refs name follow = Some s → opt_truthy (Some s) = true.
Proof.
  unfold get_ref. destruct (opt_truthy _) eqn:Ht; [|done]. by intros <-.
Qed.

Lemma get_ref_mono (refs refs0 : gmap string RefValue) name s :
  refs ⊆ refs0 →
  get_ref refs name true = Some s → get_ref refs0 name true = Some s.
Proof.
  intros Hsub Hget. pose proof (get_ref_truthy _ _ _ _ Hget) as Ht.
  unfold get_ref in *.
  destruct (opt_truthy (resolve_ref 5 refs name)) eqn:Hr; [|done].
  rewrite (resolve_ref_mono 5 refs refs0 name s Hsub Hget). by rewrite Ht.
Qed.

Lemma exec_names_distinct :
  EXEC_BRANCH ≠ EXEC_APPLY ∧ EXEC_BRANCH ≠ EXEC_CHECKPOINT
  ∧ EXEC_APPLY ≠ EXEC_CHECKPOINT.
Proof. by vm_compute. Qed.

Section GcPointers.
Variable keep : gset string.
Variables exec_branch exec_apply exec_checkpoint : option string.
Variable refs0 : gmap string RefValue.

#[local] Abbreviation step :=
  (gc_ref_step keep exec_branch exec_apply exec_checkpoint).

#[local] Abbreviation misses := (misses refs0).

Lemma gc_loop_keeps_apply l refs n :
  refs ⊆ refs0 →
  (∀ ri, ri ∈ l → baseline_sha ri ∉ keep → misses exec_apply ri) →
  (foldl step (refs, n) l).1 !! EXEC_APPLY = refs !! EXEC_APPLY.
Proof.
  destruct exec_names_distinct as (Hba & Hbc & Hac).
  revert refs n. induction l as [|ri l IH]; intros refs n Hsub Hmiss; [done|].
  cbn [foldl]. destruct (step (refs, n) ri) as [refs1 n1] eqn:E.
  assert (refs1 ⊆ refs ∧ refs1 !! EXEC_APPLY = refs !! EXEC_APPLY) as [Hs1 He1].
  { unfold gc_ref_step in E. case_decide as Hk; [by inversion E|].
    destruct (Hmiss ri) as [Hptr Hne]; [apply elem_of_cons; by left|done|].
    unfold is_exec_pointer in Hptr.
    assert (opt_truthy exec_apply
            && bool_decide (exec_apply = get_ref refs (ref_name ri) true)
            = false) as Hcond.
    { apply andb_false_iff.
      destruct (bool_decide (exec_apply = get_ref refs (ref_name ri) true))
        eqn:Hb; [left|by right].
      apply bool_decide_eq_true in Hb.
      destruct exec_apply as [s|]; [|done]. exfalso.
      apply (Hne s eq_refl). by eapply get_ref_mono. }
    rewrite Hcond in E. inversion E; subst. unfold remove_ref. split.
    - etrans; [apply delete_subseteq|].
      repeat case_match; repeat (etrans; [apply delete_subseteq|]); done.
    - rewrite lookup_delete_ne by tauto.
      repeat case_match; rewrite ?lookup_delete_ne; auto. }
  rewrite <- He1. apply IH; [by etrans|].
  intros ri' Hin. apply Hmiss. apply elem_of_cons. by right.
Qed.

Lemma gc_loop_keeps_checkpoint l refs n :
  refs ⊆ refs0 →
  (∀ ri, ri ∈ l → baseline_sha ri ∉ keep → misses exec_checkpoint ri) →
  (foldl step (refs, n) l).1 !! EXEC_CHECKPOINT = refs !! EXEC_CHECKPOINT.
Proof.
  destruct exec_names_distinct as (Hba & Hbc & Hac).
  revert refs n. induction l as [|ri l IH]; intros refs n Hsub Hmiss; [done|].
  cbn [foldl]. destruct (step (refs, n) ri) as [refs1 n1] eqn:E.
  assert (refs1 ⊆ refs ∧ refs1 !! EXEC_CHECKPOINT = refs !! EXEC_CHECKPOINT)
    as [Hs1 He1].
  { unfold gc_ref_step in E. case_decide as Hk; [by inversion E|].
    destruct (Hmiss ri) as [Hptr Hne]; [apply elem_of_cons; by left|done|].
    unfold is_exec_pointer in Hptr.
    assert (opt_truthy exec_checkpoint
            && bool_decide (exec_checkpoint = get_ref refs (ref_name ri) true)
            = false) as Hcond.
    { apply andb_false_iff.
      destruct (bool_decide (exec_checkpoint = get_ref refs (ref_name ri) true))
        eqn:Hb; [left|by right].
      apply bool_decide_eq_true in Hb.
      destruct exec_checkpoint as [s|]; [|done]. exfalso.
      apply (Hne s eq_refl). by eapply get_ref_mono. }
    rewrite Hcond in E. inversion E; subst. unfold remove_ref. split.
    - etrans; [apply delete_subseteq|].
      repeat case_match; repeat (etrans; [apply delete_subseteq|]); done.
    - rewrite lookup_delete_ne by tauto.
      repeat case_match; rewrite ?lookup_delete_ne; auto. }
  rewrite <- He1. apply IH; [by etrans|].
  intros ri' Hin. apply Hmiss. apply elem_of_cons. by right.
Qed.
End GcPointers.

(** X3: the apply and the checkpoint pointer survive [gc] when no removed
    reference resolves to the commit they hold (the removed references not
    being exec pointers themselves). *)
Theorem gc_keeps_pointer_off_removed_refs exp_refs repo ab at_ ac ws queued :
  let keep := keep_revs repo ab at_ ac ws in
  let refs0 := scm_refs repo in
  let doomed := filter (fun r => baseline_sha r ∉ keep) (exp_refs refs0) in
  ∃ n refs' stash',
    gc exp_refs repo ab at_ ac ws queued
    = Ok (n, mkRepo (brancher repo) (scm_rev repo) refs' stash')
    ∧ (Forall (misses refs0 (get_ref refs0 EXEC_APPLY true)) doomed →
       refs' !! EXEC_APPLY = refs0 !! EXEC_APPLY)
    ∧ (Forall (misses refs0 (get_ref refs0 EXEC_CHECKPOINT true)) doomed →
       refs' !! EXEC_CHECKPOINT = refs0 !! EXEC_CHECKPOINT).
Proof.
  intros keep refs0 doomed.
  destruct (decide (keep = ∅)) as [Hempty|Hne].
  - exists 0%nat, refs0, (exp_stash repo).
    unfold gc. fold keep. rewrite decide_True by done. by destruct repo.
  - rewrite gc_unfold by done. fold keep. fold refs0. cbv zeta.
    eexists _, _, _. split; [reflexivity|]. split; intros Hmiss.
    + apply gc_loop_keeps_apply with (refs0 := refs0); [done|].
      intros ri Hin Hout. apply (proj1 (Forall_forall _ _) Hmiss).
      by apply list_elem_of_filter.
    + apply gc_loop_keeps_checkpoint with (refs0 := refs0); [done|].
      intros ri Hin Hout. apply (proj1 (Forall_forall _ _) Hmiss).
      by apply list_elem_of_filter.
Qed.

(** X3 on the scenario of the spec: the apply pointer holds R1's commit, only
    R2 is removed, the pointer stays. *)
Lemma gc_keeps_pointer_off_removed_refs_witness :
  ∃ n refs' stash',
    gc demo_exp_refs (demo_repo [(EXEC_APPLY, Sha "c1")] [])
       true false false false true
    = Ok (n, mkRepo (brancher (demo_repo [] [])) "rev1" refs' stash')
    ∧ refs' !! EXEC_APPLY = Some (Sha "c1").
Proof.
  destruct (gc_keeps_pointer_off_removed_refs demo_exp_refs
              (demo_repo [(EXEC_APPLY, Sha "c1")] [])
              true false false false true)
    as (n & refs' & stash' & Hgc & Happly & _).
  exists n, refs', stash'. split; [exact Hgc|].
  rewrite Happly; [by vm_compute|].
  apply Forall_forall. intros ri Hin. vm_compute in Hin.
  apply elem_of_cons in Hin as [->|Hin]; [|by apply elem_of_nil in Hin].
  split.
  - unfold is_exec_pointer. vm_compute. intuition discriminate.
  - intros s Hs. vm_compute in Hs. inversion Hs; subst. by vm_compute.
Defined.

Section GcPointerCleared.
Variable keep : gset string.
Variables exec_branch exec_apply exec_checkpoint : option string.

#[local] Abbreviation step :=
  (gc_ref_step keep exec_branch exec_apply exec_checkpoint).

Lemma gc_ref_step_clears refs n ri s :
  baseline_sha ri ∉ keep →
  refs !! ref_name ri = Some (Sha s) → opt_truthy (Some s) = true →
  (exec_apply = Some s → (step (refs, n) ri).1 !! EXEC_APPLY = None)
  ∧ (exec_checkpoint = Some s →
     (step (refs, n) ri).1 !! EXEC_CHECKPOINT = None).
Proof.
  intros Hout Href Ht.
  assert (get_ref refs (ref_name ri) true = Some s) as Hget.
  { unfold get_ref. cbn. rewrite Href. by rewrite Ht. }
  unfold gc_ref_step. rewrite decide_False by done. rewrite Hget.
  unfold remove_ref. cbv zeta. split; intros ->.
  - rewrite Ht, (bool_decide_eq_true_2 (Some s = Some s)) by done.
    cbn [andb fst]. apply lookup_delete_None. right.
    case_match; [apply lookup_delete_None; right|]; apply lookup_delete_eq.
  - rewrite Ht, (bool_decide_eq_true_2 (Some s = Some s)) by done.
    cbn [andb fst]. apply lookup_delete_None. right. apply lookup_delete_eq.
Qed.

Lemma gc_loop_clears l refs n ri s :
  NoDup (ref_name <$> l) → ri ∈ l → baseline_sha ri ∉ keep →
  ¬ is_exec_pointer (ref_name ri) →
  refs !! ref_name ri = Some (Sha s) → opt_truthy (Some s) = true →
  (exec_apply = Some s → (foldl step (refs, n) l).1 !! EXEC_APPLY = None)
  ∧ (exec_checkpoint = Some s →
     (foldl step (refs, n) l).1 !! EXEC_CHECKPOINT = None).
Proof.
  intros Hnd Hin Hout Hptr Href Ht.
  apply list_elem_of_split in Hin as (l1 & l2 & ->).
  rewrite foldl_app. cbn [foldl].
  destruct (foldl step (refs, n) l1) as [refs1 n1] eqn:E1.
  assert (refs1 !! ref_name ri = Some (Sha s)) as Href1.
  { change refs1 with (refs1, n1).1. rewrite <- E1, <- Href.
    apply gc_loop_other; [done|].
    intros ri' Hin' _ Heq. rewrite fmap_app in Hnd. cbn in Hnd.
    apply NoDup_app in Hnd as (_ & Hdisj & _).
    apply (Hdisj (ref_name ri')).
    - apply list_elem_of_fmap. by exists ri'.
    - rewrite Heq. apply elem_of_cons. by left. }
  destruct (gc_ref_step_clears refs1 n1 ri s Hout Href1 Ht) as [Ha Hc].
  destruct (step (refs1, n1) ri) as [refs2 n2] eqn:E2. cbn in Ha, Hc.
  split; intros He; apply gc_loop_absent; auto.
Qed.
End GcPointerCleared.

(** X4: when a removed reference holds commit [s] directly, its name is
    listed once and is no exec pointer, [gc] clears the apply pointer if it
    resolves to [s], and the checkpoint pointer if it resolves to [s]. *)
Theorem gc_clears_pointer_at_removed_ref exp_refs repo ab at_ ac ws queued ri s :
  let keep := keep_revs repo ab at_ ac ws in
  let refs0 := scm_refs repo in
  keep ≠ ∅ →
  NoDup (ref_name <$> exp_refs refs0) →
  ri ∈ exp_refs refs0 → baseline_sha ri ∉ keep →
  ¬ is_exec_pointer (ref_name ri) →
  refs0 !! ref_name ri = Some (Sha s) →
  ∃ n refs' stash',
    gc exp_refs repo ab at_ ac ws queued
    = Ok (n, mkRepo (brancher repo) (scm_rev repo) refs' stash')
    ∧ (get_ref refs0 EXEC_APPLY true = Some s → refs' !! EXEC_APPLY = None)
    ∧ (get_ref refs0 EXEC_CHECKPOINT true = Some s →
       refs' !! EXEC_CHECKPOINT = None).
Proof.
  intros keep refs0 Hne Hnd Hin Hout Hptr Href.
  rewrite gc_unfold by done. fold keep. fold refs0. cbv zeta.
  eexists _, _, _. split; [reflexivity|].
  split; intros Hget; pose proof (get_ref_truthy _ _ _ _ Hget) as Ht;
    eapply gc_loop_clears; eauto.
Qed.

Lemma gc_clears_pointer_at_removed_ref_witness :
  ∃ n refs' stash',
    gc demo_exp_refs
       (demo_repo [(EXEC_APPLY, Sha "c2"); (EXEC_CHECKPOINT, SymRef R2)] [])
       true false false false true
    = Ok (n, mkRepo (brancher (demo_repo [] [])) "rev1" refs' stash')
    ∧ refs' !! EXEC_APPLY = None ∧ refs' !! EXEC_CHECKPOINT = None.
Proof.
  destruct (gc_clears_pointer_at_removed_ref demo_exp_refs
              (demo_repo [(EXEC_APPLY, Sha "c2"); (EXEC_CHECKPOINT, SymRef R2)] [])
              true false false false true (mkExpRef "rev2" R2) "c2")
    as (n & refs' & stash' & Hgc & Happly & Hcheckpoint).
  - vm_compute. discriminate.
  - apply (bool_decide_unpack _). by vm_compute.
  - apply (bool_decide_unpack _). by vm_compute.
  - apply (bool_decide_unpack _). by vm_compute.
  - unfold is_exec_pointer. vm_compute. intuition discriminate.
  - by vm_compute.
  - exists n, refs', stash'. split; [exact Hgc|]. split.
    + apply Happly. by vm_compute.
    + apply Hcheckpoint. by vm_compute.
Defined.

Lemma filter_idem {A} (P : A → Prop) `{∀ x, Decision (P x)} (l : list A) :
  filter P (filter P l) = filter P l.
Proof.
  induction l as [|a l IH]; [done|]. rewrite filter_cons.
  case_decide; [|done]. rewrite filter_cons, decide_True by done. by rewrite IH.
Qed.

(** X5: [gc] is idempotent.  With an [exp_refs] that lists only references
    present in the store, and lists no more when the store shrinks, a second
    run with the same flags removes nothing and returns 0. *)
Theorem gc_idempotent exp_refs repo ab at_ ac ws queued n repo' :
  (∀ refs ri, ri ∈ exp_refs refs → is_Some (refs !! ref_name ri)) →
  (∀ refs refs' ri, refs' ⊆ refs → ri ∈ exp_refs refs' → ri ∈ exp_refs refs) →
  gc exp_refs repo ab at_ ac ws queued = Ok (n, repo') →
  gc exp_refs repo' ab at_ ac ws queued = Ok (0%nat, repo').
Proof.
  intros Hpresent Hshrink Hgc.
  destruct (decide (keep_revs repo ab at_ ac ws = ∅)) as [Hempty|Hne].
  - unfold gc in Hgc. rewrite decide_True in Hgc by done.
    inversion Hgc; subst. unfold gc. by rewrite decide_True.
  - rewrite gc_unfold in Hgc by done. cbv zeta in Hgc.
    injection Hgc as _ <-.
    set (keep := keep_revs repo ab at_ ac ws) in *.
    set (loop := foldl _ _ _).
    set (stash' := filter (stash_kept keep queued) (exp_stash repo)).
    assert (keep_revs (mkRepo (brancher repo) (scm_rev repo) loop.1 stash')
                      ab at_ ac ws = keep) as Hkeep by done.
    rewrite gc_unfold by (by rewrite Hkeep). rewrite Hkeep. cbv zeta.
    cbn [scm_refs exp_stash brancher scm_rev].
    rewrite gc_loop_all_kept.
    + unfold stash'. rewrite filter_idem, Nat.sub_diag. done.
    + apply Forall_forall. intros ri Hin.
      destruct (decide (baseline_sha ri ∈ keep)) as [|Hout]; [done|exfalso].
      destruct (Hpresent _ _ Hin) as [v Hv].
      assert (ri ∈ exp_refs (scm_refs repo)) as Hin0.
      { eapply Hshrink; [|exact Hin]. apply gc_loop_subseteq. }
      unfold loop in Hv. rewrite gc_loop_removes in Hv; done.
Qed.

Lemma demo_exp_refs_present refs ri :
  ri ∈ demo_exp_refs refs → is_Some (refs !! ref_name ri).
Proof. unfold demo_exp_refs. by intros [? _]%list_elem_of_filter. Qed.

Lemma demo_exp_refs_shrink (refs refs' : gmap string RefValue) ri :
  refs' ⊆ refs → ri ∈ demo_exp_refs refs' → ri ∈ demo_exp_refs refs.
Proof.
  unfold demo_exp_refs. intros Hsub [[v Hv] Hin]%list_elem_of_filter.
  apply list_elem_of_filter. split; [|done].
  exists v. by eapply lookup_weaken.
Qed.

Lemma gc_idempotent_witness :
  let repo :=
    demo_repo [(EXEC_APPLY, Sha "c2")] [mkStashCommit "s0" "rev2"] in
  let repo' := mkRepo (brancher repo) "rev1" {[ R1 := Sha "c1" ]} [] in
  gc demo_exp_refs repo true false false false true = Ok (2%nat, repo')
  ∧ gc demo_exp_refs repo' true false false false true = Ok (0%nat, repo').
Proof.
  cbv zeta.
  assert (gc demo_exp_refs
             (demo_repo [(EXEC_APPLY, Sha "c2")] [mkStashCommit "s0" "rev2"])
             true false false false true
          = Ok (2%nat,
                mkRepo (brancher (demo_repo [] [])) "rev1"
                       {[ R1 := Sha "c1" ]} [])) as Hfirst by by vm_compute.
  split; [exact Hfirst|].
  exact (gc_idempotent demo_exp_refs _ true false false false true _ _
           demo_exp_refs_present demo_exp_refs_shrink Hfirst).
Defined.

(** ** Hash values and cache paths *)

Lemma substring_whole s : String.substring 0 (String.length s) s = s.
Proof. induction s as [|c s IH]; [done|]. cbn. by rewrite IH. Qed.

Lemma substring_split s i :
  String.substring 0 i s +:+ String.substring i (String.length s - i) s = s.
Proof.
  revert s. induction i as [|i IH]; intros s.
  - rewrite Nat.sub_0_r, substring_whole. by destruct s.
  - destruct s as [|c s]; [done|].
    cbn [String.substring String.length Nat.sub].
    change (String c ?a +:+ ?b) with (String c (a +:+ b)). by rewrite IH.
Qed.

Lemma substring_append_r p t :
  String.substring (String.length p) (String.length t) (p +:+ t) = t.
Proof.
  induction p as [|c p IH]; [apply substring_whole|].
  change (String c p +:+ t) with (String c (p +:+ t)). cbn. exact IH.
Qed.

Lemma endswith_spec s t : endswith s t = true ↔ ∃ p, s = p +:+ t.
Proof.
  unfold endswith. rewrite andb_true_iff, Nat.leb_le, String.eqb_eq. split.
  - intros [Hle Hsub].
    exists (String.substring 0 (String.length s - String.length t) s).
    pose proof (substring_split s (String.length s - String.length t)) as Hs.
    replace (String.length s - (String.length s - String.length t))%nat
      with (String.length t) in Hs by lia.
    by rewrite Hsub in Hs.
  - intros [p ->]. rewrite string_append_length. split; [lia|].
    replace (String.length p + String.length t - String.length t)%nat
      with (String.length p) by lia.
    apply substring_append_r.
Qed.

(** X6: a hash value is a directory hash exactly when it is some string
    followed by the directory suffix; no value ([None]) and the empty value
    are not. *)
Theorem is_dir_hash_iff_suffix (hash_ : option string) :
  is_dir_hash hash_ = true ↔ ∃ p, hash_ = Some (p +:+ CHECKSUM_DIR_SUFFIX).
Proof.
  unfold is_dir_hash. destruct hash_ as [v|].
  - destruct (str_truthy v) eqn:Hv.
    + rewrite endswith_spec. split; intros [p Hp]; exists p; congruence.
    + split; [done|]. intros [p [= ->]].
      unfold str_truthy in Hv. apply negb_false_iff, String.eqb_eq in Hv.
      apply (f_equal String.length) in Hv.
      rewrite string_append_length in Hv. cbn in Hv. lia.
  - split; [done|]. by intros [p ?].
Qed.


(** ** Hashing: attribution and completeness *)

Section PyDict.
Context {K V : Type} `{EqDecision K}.

Lemma dict_set_keys (k : K) (v : V) d :
  (dict_set k v d).*1 = if decide (k ∈ d.*1) then d.*1 else d.*1 ++ [k].
Proof.
  induction d as [|[k' v'] d IH]; [done|]. cbn.
  destruct (decide (k = k')) as [->|Hne].
  - cbn. rewrite decide_True; [done|]. apply elem_of_cons. by left.
  - cbn. rewrite IH. destruct (decide (k ∈ d.*1)) as [Hin|Hout].
    + rewrite decide_True; [done|]. apply elem_of_cons. by right.
    + rewrite decide_False; [done|]. intros [?|?]%elem_of_cons; done.
Qed.

Lemma dict_set_elem (k : K) (v : V) d k' v' :
  (k', v') ∈ dict_set k v d → (k', v') ∈ d ∨ (k' = k ∧ v' = v).
Proof.
  induction d as [|[k0 v0] d IH]; cbn.
  - intros [[= -> ->]|Hin]%elem_of_cons; [by right|].
    by apply elem_of_nil in Hin.
  - destruct (decide (k = k0)) as [->|Hne].
    + intros [[= -> ->]|Hin]%elem_of_cons; [by right|].
      left. apply elem_of_cons. by right.
    + intros [[= -> ->]|Hin]%elem_of_cons.
      * left. apply elem_of_cons. by left.
      * destruct (IH Hin) as [?|?]; [left|by right].
        apply elem_of_cons. by right.
Qed.

(** A dict built from pairs whose value is a function of the key. *)
Lemma py_dict_functional (f : K → V) (keys : list K) :
  let d := py_dict ((fun k => (k, f k)) <$> keys) in
  NoDup d.*1 ∧ ∀ k v, (k, v) ∈ d ↔ k ∈ keys ∧ v = f k.
Proof.
  unfold py_dict.
  assert (∀ acc : list (K * V),
            NoDup acc.*1 → (∀ k v, (k, v) ∈ acc → v = f k) →
            let d := foldl (fun d kv => dict_set kv.1 kv.2 d) acc
                           ((fun k => (k, f k)) <$> keys) in
            NoDup d.*1
            ∧ (∀ k v, (k, v) ∈ d → v = f k)
            ∧ (∀ k, k ∈ d.*1 ↔ k ∈ acc.*1 ∨ k ∈ keys)) as Hgen.
  { induction keys as [|k keys IH]; intros acc Hnd Hval; cbn.
    - split; [done|]. split; [done|]. intros k. split; [by left|].
      intros [?|Hin]; [done|]. by apply elem_of_nil in Hin.
    - destruct (IH (dict_set k (f k) acc)) as (IH1 & IH2 & IH3).
      + rewrite dict_set_keys. case_decide; [done|].
        apply NoDup_app. split; [done|]. split; [|apply NoDup_singleton].
        intros x Hx Hx'. apply list_elem_of_singleton in Hx'. by subst.
      + intros k' v' [Hin|[-> ->]]%dict_set_elem; [by eapply Hval|done].
      + split; [done|]. split; [done|]. intros k'. rewrite IH3.
        rewrite dict_set_keys, elem_of_cons. case_decide as Hk.
        * split; [tauto|]. intros [?|[->|?]]; auto.
        * rewrite elem_of_app, list_elem_of_singleton. tauto. }
  destruct (Hgen [] (NoDup_nil_2) (fun k v H => False_rect _
              (proj1 (elem_of_nil _) H))) as (H1 & H2 & H3).
  cbv zeta. split; [done|]. intros k v. split.
  - intros Hin. split; [|by eapply H2].
    apply (list_elem_of_fmap_2 fst) in Hin. cbn in Hin.
    apply H3 in Hin as [Hin|Hin]; [|done]. by apply elem_of_nil in Hin.
  - intros [Hin ->].
    assert (k ∈ (foldl (fun d kv => dict_set kv.1 kv.2 d) []
                       ((fun k => (k, f k)) <$> keys)).*1) as Hk
      by (apply H3; by right).
    apply list_elem_of_fmap in Hk as ([k' v'] & -> & Hkv). cbn.
    by rewrite <- (H2 _ _ Hkv).
Qed.
End PyDict.

Lemma _calculate_hashes_functional {Ext} (self : BaseTree Ext)
    (file_infos : list Location) (w : World Ext) :
  NoDup (_calculate_hashes self file_infos w).*1
  ∧ ∀ fi h, (fi, h) ∈ _calculate_hashes self file_infos w
            ↔ fi ∈ file_infos ∧ h = get_file_hash self fi w.
Proof.
  unfold _calculate_hashes. rewrite zip_with_hashes.
  apply (py_dict_functional (fun fi => get_file_hash self fi w)).
Qed.

(** X8: [_calculate_hashes] attributes to every requested file its own
    [get_file_hash], and to no other; it lists each file once, also when the
    request names a file twice; and a request without repetitions is
    answered in the request's order. *)
Theorem _calculate_hashes_complete {Ext} (self : BaseTree Ext)
    (file_infos : list Location) (w : World Ext) :
  NoDup (_calculate_hashes self file_infos w).*1
  ∧ (∀ fi h, (fi, h) ∈ _calculate_hashes self file_infos w
             ↔ fi ∈ file_infos ∧ h = get_file_hash self fi w)
  ∧ (NoDup file_infos →
     _calculate_hashes self file_infos w
     = (fun fi => (fi, get_file_hash self fi w)) <$> file_infos).
Proof.
  destruct (_calculate_hashes_functional self file_infos w) as [Hnd Hiff].
  split; [done|]. split; [done|].
  intros Hfiles. by apply _calculate_hashes_distinct.
Qed.

Lemma walk_cached_elem {Ext} (self : BaseTree Ext) (w : World Ext) files :
  (∀ fi h, (fi, h) ∈ (walk_cached self files w).1
           ↔ fi ∈ files ∧ truthy_hash (state_get (state self) fi w) = Some h)
  ∧ (∀ fi, fi ∈ (walk_cached self files w).2
           ↔ fi ∈ files ∧ truthy_hash (state_get (state self) fi w) = None).
Proof.
  rewrite walk_cached_yielded, walk_cached_file_infos. split.
  - intros fi h. rewrite list_elem_of_omap. split.
    + intros (fi' & Hin & Hpair).
      destruct (truthy_hash (state_get (state self) fi' w)) as [c|] eqn:Hc;
        [|done].
      cbn in Hpair. inversion Hpair; subst. by split.
    + intros [Hin Hc]. exists fi. split; [done|]. by rewrite Hc.
  - intros fi. rewrite list_elem_of_filter. tauto.
Qed.

(** X9: with the walking strategy, [_iter_hashes] yields a pair for every
    file [walk_files] lists and for no other, each file with the fingerprint
    cache's hash when the cache has a truthy one and with [get_file_hash]'s
    otherwise: [get_file_hash] decides only for files the cache misses. *)
Theorem _iter_hashes_walk_members {Ext} (self : BaseTree Ext)
    (path_info : Location) (w : World Ext) :
  checksum_in_details self = false →
  ∀ fi h, (fi, h) ∈ _iter_hashes self path_info w
          ↔ fi ∈ walk_files self path_info w ∧ h = member_hash self w fi.
Proof.
  intros Hwalk fi h. unfold _iter_hashes. rewrite Hwalk.
  destruct (walk_cached_elem self w (walk_files self path_info w)) as [Hy Hf].
  destruct (walk_cached self (walk_files self path_info w) w) as [ys fis].
  cbn in Hy, Hf. rewrite elem_of_app, Hy.
  destruct (_calculate_hashes_functional self fis w) as [_ Hcalc].
  rewrite Hcalc, Hf. unfold member_hash. split.
  - intros [[Hin Hc]|[[Hin Hc] ->]]; rewrite Hc; by split.
  - intros [Hin ->].
    destruct (truthy_hash (state_get (state self) fi w)) eqn:Hc; [left|right];
      by repeat split.
Qed.

(** X9 on the directory "data", one file known to the fingerprint cache. *)
Lemma _iter_hashes_walk_members_witness :
  let w :=
    mkWorld empty_fs
      (mkDemoExt [(demo_loc ["data"; "a"], "alpha");
                  (demo_loc ["data"; "b"], "beta")] []
                 [(demo_loc ["data"; "a"],
                   mkHashInfo (Some "md5") (Some "cached") None)] []) in
  (demo_loc ["data"; "a"], mkHashInfo (Some "md5") (Some "cached") None)
    ∈ _iter_hashes (demo_tree true) (demo_loc ["data"]) w
  ∧ (demo_loc ["data"; "b"], mkHashInfo (Some "md5") (Some "beta") None)
    ∈ _iter_hashes (demo_tree true) (demo_loc ["data"]) w.
Proof.
  cbv zeta. split.
  - apply (_iter_hashes_walk_members (demo_tree true)); [done|].
    split; [|by vm_compute]. apply (bool_decide_unpack _). by vm_compute.
  - apply (_iter_hashes_walk_members (demo_tree true)); [done|].
    split; [|by vm_compute]. apply (bool_decide_unpack _). by vm_compute.
Defined.

(** ** Hashing: the content of the manifest *)

Lemma foldl_insert_lookup (kvs : list (list string * HashInfo))
    (m : gmap (list string) HashInfo) :
  NoDup kvs.*1 → (∀ k, k ∈ kvs.*1 → m !! k = None) →
  let m' := foldl (fun m kv => <[kv.1 := kv.2]> m) m kvs in
  (∀ k v, m' !! k = Some v ↔ (k, v) ∈ kvs ∨ m !! k = Some v)
  ∧ size m' = (size m + length kvs)%nat.
Proof.
  revert m. induction kvs as [|[k0 v0] kvs IH]; intros m Hnd Hfresh; cbn.
  - split; [|lia]. intros k v. split; [by right|].
    intros [Hin|?]; [|done]. by apply elem_of_nil in Hin.
  - cbn in Hnd. apply NoDup_cons in Hnd as [Hk0 Hnd].
    destruct (IH (<[k0 := v0]> m) Hnd) as [IH1 IH2].
    { intros k Hk. rewrite lookup_insert_ne; [|by intros ->].
      apply Hfresh. cbn. apply elem_of_cons. by right. }
    split.
    + intros k v. rewrite IH1, elem_of_cons, lookup_insert.
      destruct (decide (k0 = k)) as [->|Hne].
      * rewrite Hfresh by (cbn; apply elem_of_cons; by left).
        split.
        -- intros [Hin|[= ->]]; [|by left; left].
           exfalso. apply Hk0. apply list_elem_of_fmap. by exists (k, v).
        -- intros [[[= ->]|Hin]|?]; [by right| |done].
           exfalso. apply Hk0. apply list_elem_of_fmap. by exists (k, v).
      * split.
        -- intros [?|?]; [left; by right|by right].
        -- intros [[[= -> ->]|?]|?]; [done|by left|by right].
    + rewrite IH2, map_size_insert_None; [lia|].
      apply Hfresh. cbn. apply elem_of_cons. by left.
Qed.

Lemma manifest_entries_length root pairs :
  Forall (fun p => is_Some (relative_to p.1 root)) pairs →
  length (omap (manifest_entry root) pairs) = length pairs.
Proof.
  induction 1 as [|[fi hi] pairs [r Hr] _ IH]; [done|].
  cbn [omap list_omap]. unfold manifest_entry at 1. cbn in *. rewrite Hr. cbn.
  by rewrite IH.
Qed.

(** X10: for a directory whose members, as [_iter_hashes] yields them, are
    distinct, lie below the directory and are not named like the ignore
    marker, [_collect_dir] succeeds, and the manifest has one entry per
    member: exactly the members' relative paths, each with the member's
    hash. *)
Theorem _collect_dir_manifest {Ext} (self : BaseTree Ext)
    (path_info : Location) (w : World Ext) :
  let pairs := _iter_hashes self path_info w in
  NoDup pairs.*1 →
  Forall (fun fi => loc_name fi ≠ DVCIGNORE_FILE) pairs.*1 →
  Forall (fun fi => is_Some (relative_to fi path_info)) pairs.*1 →
  ∃ dir_info,
    _collect_dir self path_info w = Ok dir_info
    ∧ (∀ parts h, trie dir_info !! parts = Some h
                  ↔ ∃ fi, (fi, h) ∈ pairs ∧ relative_to fi path_info = Some parts)
    ∧ size (trie dir_info) = length pairs.
Proof.
  intros pairs Hnd Hm Hb.
  apply (Forall_fmap fst) in Hm. apply (Forall_fmap fst) in Hb.
  unfold _collect_dir. fold pairs. rewrite collect_loop_ok by done.
  eexists. split; [reflexivity|]. cbn [trie].
  destruct (foldl_insert_lookup (omap (manifest_entry path_info) pairs) ∅)
    as [Hlook Hsize].
  { by apply manifest_entries_NoDup. }
  { intros k _. apply lookup_empty. }
  split.
  - intros parts h. rewrite Hlook, lookup_empty, list_elem_of_omap. split.
    + intros [([fi h'] & Hin & Hentry)|?]; [|done].
      unfold manifest_entry in Hentry. cbn in Hentry.
      destruct (relative_to fi path_info) as [r|] eqn:Hr; [|done].
      cbn in Hentry. inversion Hentry; subst. by exists fi.
    + intros (fi & Hin & Hr). left. exists (fi, h). split; [done|].
      unfold manifest_entry. cbn. by rewrite Hr.
  - rewrite Hsize, map_size_empty, manifest_entries_length by done. done.
Qed.

(** X10 on the directory "data": two members, two entries. *)
Lemma _collect_dir_manifest_witness :
  ∃ dir_info,
    _collect_dir (demo_tree true) (demo_loc ["data"]) demo_world = Ok dir_info
    ∧ trie dir_info !! ["b"] = Some (mkHashInfo (Some "md5") (Some "beta") None)
    ∧ size (trie dir_info) = 2%nat.
Proof.
  destruct (_collect_dir_manifest (demo_tree true) (demo_loc ["data"])
              demo_world) as (d & Hd & Hentries & Hsize).
  - apply (bool_decide_unpack _). by vm_compute.
  - vm_compute. repeat constructor; discriminate.
  - vm_compute. repeat constructor; by eexists.
  - exists d. split; [exact Hd|]. split; [|exact Hsize].
    apply Hentries. exists (demo_loc ["data"; "b"]).
    split; [|by vm_compute]. apply (bool_decide_unpack _). by vm_compute.
Defined.



(** ** Transfer: what a download leaves alone *)

Lemma move_others src dst fs fs' p :
  move src dst fs = Ok fs' → p ≠ src → p ≠ dst →
  fs_files fs' !! p = fs_files fs !! p.
Proof.
  unfold move. destruct (fs_files fs !! src) as [data|]; [|done].
  intros [= <-] Hsrc Hdst. cbn.
  rewrite lookup_insert_ne by done. by rewrite lookup_delete_ne.
Qed.

Lemma move_source src dst fs fs' :
  move src dst fs = Ok fs' → src ≠ dst → fs_files fs' !! src = None.
Proof.
  unfold move. destruct (fs_files fs !! src) as [data|]; [|done].
  intros [= <-] Hne. cbn.
  rewrite lookup_insert_ne by done. apply lookup_delete_eq.
Qed.

Lemma _download_file_others {Ext} (self : BaseTree Ext) (uuid : string)
    (from_info to_info : Location) (w : World Ext) (p : list string) :
  (∀ bd, _download self = Some bd → backend_writes_only_target bd) →
  p ≠ loc_parts to_info → p ≠ tmp_fname uuid (loc_parts to_info) →
  Forall (fun s => file_at s p = file_at w p)
         (dl_partial (_download_file self uuid from_info to_info w)
          ++ [dl_final (_download_file self uuid from_info to_info w)]).
Proof.
  intros Hbackend Hdst Htmp. unfold _download_file.
  destruct (makedirs _ (local_fs w)) as [fs1|e] eqn:Hmk; cbn.
  2: { by repeat constructor. }
  apply makedirs_files in Hmk.
  assert (file_at (mkWorld fs1 (ext w)) p = file_at w p) as Hw1
    by (unfold file_at; cbn; by rewrite Hmk).
  destruct (_download self) as [bd|] eqn:Hbd; cbn.
  2: { by repeat constructor. }
  specialize (Hbackend bd eq_refl from_info
                (tmp_fname uuid (loc_parts to_info)) (mkWorld fs1 (ext w))).
  unfold writes_only in Hbackend.
  assert (Forall (fun s => file_at s p = file_at w p)
            (dl_partial (bd from_info (tmp_fname uuid (loc_parts to_info))
                            (mkWorld fs1 (ext w)))
             ++ [dl_final (bd from_info (tmp_fname uuid (loc_parts to_info))
                              (mkWorld fs1 (ext w)))])) as Hrun.
  { eapply Forall_impl; [exact Hbackend|]. intros s Hs. cbn in Hs.
    unfold file_at. rewrite Hs by done. exact Hw1. }
  apply Forall_app in Hrun as [Hpartial Hfinal].
  rewrite Forall_singleton in Hfinal.
  destruct (dl_result _) as [[]|e]; cbn.
  - destruct (move _ _ _) as [fs3|e] eqn:Hmv; cbn.
    + constructor; [done|]. rewrite <- app_assoc.
      apply Forall_app. split; [done|]. cbn.
      constructor; [done|]. constructor; [|done].
      unfold file_at. cbn. erewrite move_others by eauto. exact Hfinal.
    + constructor; [done|]. rewrite <- app_assoc.
      apply Forall_app. split; [done|]. by repeat constructor.
  - constructor; [done|]. apply Forall_app. split; [done|].
    by repeat constructor.
Qed.

Lemma _download_file_done {Ext} (self : BaseTree Ext) (uuid : string)
    (from_info to_info : Location) (w : World Ext) :
  dl_result (_download_file self uuid from_info to_info w) = Ok tt →
  file_at (dl_final (_download_file self uuid from_info to_info w))
          (tmp_fname uuid (loc_parts to_info)) = None
  ∧ is_Some (file_at (dl_final (_download_file self uuid from_info to_info w))
                     (loc_parts to_info)).
Proof.
  unfold _download_file.
  destruct (makedirs _ (local_fs w)) as [fs1|e]; cbn; [|done].
  destruct (_download self) as [bd|]; cbn; [|done].
  destruct (dl_result (bd _ _ _)) as [[]|e]; cbn; [|done].
  destruct (move _ _ _) as [fs3|e] eqn:Hmv; cbn; [|done].
  intros _. unfold file_at. cbn. split.
  - eapply move_source; [exact Hmv|]. apply tmp_fname_fresh.
  - apply move_target in Hmv as [-> ?]. done.
Qed.

(** X12: a single-object download touches two local paths only.  With a
    backend that writes nothing but the file it is given, every local file
    other than the destination and the temporary file next to it is, at every
    moment of the call and at its end, what it was before - whether the call
    succeeds or fails; and when the call succeeds the temporary file is gone
    and the destination exists. *)
Theorem _download_file_frame {Ext} (self : BaseTree Ext) (uuid : string)
    (from_info to_info : Location) (w : World Ext) :
  (∀ bd, _download self = Some bd → backend_writes_only_target bd) →
  let run := _download_file self uuid from_info to_info w in
  let tmp_file := tmp_fname uuid (loc_parts to_info) in
  (∀ p, p ≠ loc_parts to_info → p ≠ tmp_file →
        Forall (fun s => file_at s p = file_at w p)
               (dl_partial run ++ [dl_final run]))
  ∧ (dl_result run = Ok tt →
     file_at (dl_final run) tmp_file = None
     ∧ is_Some (file_at (dl_final run) (loc_parts to_info))).
Proof.
  intros Hbackend run tmp_file. split.
  - intros p Hdst Htmp. by apply _download_file_others.
  - apply _download_file_done.
Qed.

(** X12 on a download next to an existing file "out/keep". *)
Lemma _download_file_frame_witness :
  let w :=
    mkWorld (mkLocalFS {[ ["out"; "keep"] := [Byte.x6b] ]} ∅) (ext demo_world) in
  let run :=
    _download_file (demo_tree true) "u1" (demo_loc ["data"; "a"])
                   (local_loc ["out"; "a"]) w in
  file_at (dl_final run) ["out"; "keep"] = Some [Byte.x6b]
  ∧ file_at (dl_final run) ["out"; "a.u1.tmp"] = None
  ∧ is_Some (file_at (dl_final run) ["out"; "a"]).
Proof.
  cbv zeta.
  destruct (_download_file_frame (demo_tree true) "u1"
              (demo_loc ["data"; "a"]) (local_loc ["out"; "a"])
              (mkWorld (mkLocalFS {[ ["out"; "keep"] := [Byte.x6b] ]} ∅)
                       (ext demo_world)))
    as [Hframe Hdone].
  - intros bd [= <-]. exact demo_download_writes_only_target.
  - split.
    + specialize (Hframe ["out"; "keep"] ltac:(done) ltac:(done)).
      apply Forall_app in Hframe as [_ Hfinal].
      rewrite Forall_singleton in Hfinal. rewrite Hfinal. by vm_compute.
    + apply Hdone. by vm_compute.
Defined.

(** ** Transfer: the executor of [_download_dir] at work *)



Section PoolShape.
Context {Ext : Type} (self : BaseTree Ext).
Variable uuids : nat → string.
Variables from_info to_info : Location.
Variable from_infos : list Location.
Variable max_workers : nat.

#[local] Abbreviation step :=
  (pool_step self uuids from_info to_info from_infos max_workers).
#[local] Abbreviation run :=
  (pool_run self uuids from_info to_info from_infos max_workers).

(** What one event does to the futures and to the world. *)
Lemma pool_step_shape ev (st st' : Pool Ext) :
  step ev st = Some st' →
  (world st' = world st ∧ futures st' = futures st
   ∧ transfers [ev] = []
   ∧ ∀ exc k, main st' = Cancelling exc k → k = 0%nat)
  ∨ (world st' = world st ∧ futures st' = futures st ++ [Pending]
     ∧ transfers [ev] = []
     ∧ ∃ k, main st' = Submitting k)
  ∨ (∃ exc k entry,
       main st = Cancelling exc k ∧ futures st !! k = Some entry
       ∧ world st' = world st
       ∧ futures st' = <[k := cancel entry]> (futures st)
       ∧ transfers [ev] = []
       ∧ main st' = Cancelling exc (S k))
  ∨ (∃ i,
       ev = WorkerStart i ∧ futures st !! i = Some Pending
       ∧ existsb is_pending (take i (futures st)) = false
       ∧ (running_count (futures st) < max_workers)%nat
       ∧ world st' = world st
       ∧ futures st' = <[i := Running]> (futures st)
       ∧ main st' = main st)
  ∨ (∃ i info to_i,
       ev = WorkerFinish i ∧ futures st !! i = Some Running
       ∧ from_infos !! i = Some info
       ∧ member_to_info from_info to_info info = Some to_i
       ∧ world st' = dl_final (_download_file self (uuids i) info to_i (world st))
       ∧ futures st'
         = <[i := Finished
                    (dl_result (_download_file self (uuids i) info to_i (world st)))]>
             (futures st)
       ∧ main st' = main st).
Proof.
  destruct st as [w fs ys m]. intros Hstep.
  destruct ev as [|i|i|i].
  - destruct m as [k| |exc k|r|r]; cbn in Hstep.
    + destruct (from_infos !! k) as [info|].
      * destruct (member_to_info from_info to_info info).
        -- inversion Hstep; subst; cbn. right; left. eauto 10.
        -- inversion Hstep; subst; cbn. left. done.
      * inversion Hstep; subst; cbn. left. done.
    + destruct (forallb _ _); inversion Hstep; subst; cbn. left. done.
    + destruct (fs !! k) as [entry|] eqn:Hk; inversion Hstep; subst; cbn.
      * right; right; left. exists exc, k, entry. done.
      * left. done.
    + destruct (existsb is_unfinished fs); inversion Hstep; subst; cbn.
      left. done.
    + done.
  - destruct m as [k| |exc k|r|r]; cbn in Hstep; try done.
    case_bool_decide; [done|].
    destruct (fs !! i) as [[| |[[]|e]|]|]; inversion Hstep; subst; cbn; left;
      repeat split; try done; intros exc k [= _ <-]; done.
  - right; right; right; left. exists i.
    assert (match fs !! i with
            | Some Pending =>
                if existsb is_pending (take i fs) then None
                else if decide (running_count fs < max_workers)%nat
                     then Some (mkPool w (<[i := Running]> fs) ys m)
                     else None
            | _ => None
            end = Some st') as Hstep'
      by (destruct m; exact Hstep).
    destruct (fs !! i) as [[| | |]|] eqn:Hi; try done.
    destruct (existsb is_pending (take i fs)) eqn:Hnone; [done|].
    destruct (decide (running_count fs < max_workers)%nat); [|done].
    inversion Hstep'; subst; cbn. done.
  - right; right; right; right.
    assert (match fs !! i, from_infos !! i with
            | Some Running, Some info =>
                match member_to_info from_info to_info info with
                | Some to_i =>
                    Some (mkPool
                            (dl_final (_download_file self (uuids i) info to_i w))
                            (<[i := Finished
                                      (dl_result
                                         (_download_file self (uuids i) info to_i w))]>
                               fs)
                            ys m)
                | None => None
                end
            | _, _ => None
            end = Some st') as Hstep'
      by (destruct m; exact Hstep).
    destruct (fs !! i) as [[| | |]|] eqn:Hi; try done.
    destruct (from_infos !! i) as [info|] eqn:Hinfo; [|done].
    destruct (member_to_info from_info to_info info) as [to_i|] eqn:Hto;
      [|done].
    inversion Hstep'; subst; cbn. exists i, info, to_i. done.
Qed.

(** A property every event keeps holds at the end of every run. *)
Lemma pool_run_keeps (P : Pool Ext → Prop) :
  (∀ ev st st', P st → step ev st = Some st' → P st') →
  ∀ sched st st', P st → run sched st = Some st' → P st'.
Proof.
  intros Hkeep. induction sched as [|ev sched IH]; intros st st' HP Hrun.
  - cbn in Hrun. by inversion Hrun; subst.
  - cbn in Hrun. destruct (step ev st) as [st1|] eqn:Hstep; [|done].
    eapply IH; [|exact Hrun]. by eapply Hkeep.
Qed.

Lemma pool_run_last sched ev (st st' : Pool Ext) :
  run (sched ++ [ev]) st = Some st' →
  ∃ st1, run sched st = Some st1 ∧ step ev st1 = Some st'.
Proof.
  revert st. induction sched as [|ev' sched IH]; intros st Hrun.
  - cbn in Hrun. destruct (step ev st) as [st1|] eqn:Hstep; [|done].
    exists st. split; [done|]. by inversion Hrun; subst.
  - cbn in Hrun. destruct (step ev' st) as [st1|] eqn:Hstep; [|done].
    destruct (IH st1 Hrun) as (st2 & Hrun2 & Hstep2).
    exists st2. split; [|done]. cbn. by rewrite Hstep.
Qed.



End PoolShape.





Section PoolEffects.
Context {Ext : Type} (self : BaseTree Ext).
Variable uuids : nat → string.
Variables from_info to_info : Location.
Variable from_infos : list Location.
Variable max_workers : nat.

(** The backend writes nothing but the file it is given. *)
Hypothesis Hbackend :
  ∀ bd, _download self = Some bd → backend_writes_only_target bd.

#[local] Abbreviation step :=
  (pool_step self uuids from_info to_info from_infos max_workers).
#[local] Abbreviation run :=
  (pool_run self uuids from_info to_info from_infos max_workers).


Lemma member_to_info_inj info info' to_i to_i' :
  member_to_info from_info to_info info = Some to_i →
  member_to_info from_info to_info info' = Some to_i' →
  loc_parts to_i = loc_parts to_i' → info = info'.
Proof.
  unfold member_to_info.
  destruct (relative_to info from_info) as [r|] eqn:Hr; [|done].
  destruct (relative_to info' from_info) as [r'|] eqn:Hr'; [|done].
  cbn. intros [= <-] [= <-]. cbn. intros Heq%app_inv_head. subst r'.
  by eapply relative_to_inj.
Qed.

(** Every member whose transfer finished without error has its destination
    in place. *)
Hypothesis Hnodup : NoDup from_infos.
Hypothesis Hclash : no_tmp_clash uuids from_info to_info from_infos.

Lemma pool_delivered_step ev (st st' : Pool Ext) :
  (∀ i info to_i,
     futures st !! i = Some (Finished (Ok tt)) →
     from_infos !! i = Some info →
     member_to_info from_info to_info info = Some to_i →
     is_Some (file_at (world st) (loc_parts to_i))) →
  step ev st = Some st' →
  ∀ i info to_i,
    futures st' !! i = Some (Finished (Ok tt)) →
    from_infos !! i = Some info →
    member_to_info from_info to_info info = Some to_i →
    is_Some (file_at (world st') (loc_parts to_i)).
Proof.
  intros Hdel Hstep i info to_i Hi Hinfo Hto.
  destruct (pool_step_shape _ _ _ _ _ _ _ _ _ Hstep)
    as [(Hw & Hfs & _)
       |[(Hw & Hfs & _)
        |[(exc & k & entry & _ & Hk & Hw & Hfs & _)
         |[(j & _ & Hj & _ & _ & Hw & Hfs & _)
          |(j & info_j & to_j & _ & Hj & Hinfo_j & Hto_j & Hw & Hfs & _)]]]];
    rewrite Hw; rewrite Hfs in Hi.
  - by eapply Hdel.
  - eapply Hdel; [|done..].
    destruct (decide (i < length (futures st))%nat).
    + by rewrite lookup_app_l in Hi.
    + apply lookup_lt_Some in Hi as Hlt. rewrite length_app in Hlt.
      cbn in Hlt. assert (i = length (futures st)) as -> by lia.
      rewrite lookup_app_r, Nat.sub_diag in Hi by lia. done.
  - eapply Hdel; [|done..].
    destruct (decide (k = i)) as [->|Hne].
    + rewrite list_lookup_insert_eq in Hi by (by eapply lookup_lt_Some).
      rewrite Hk. by destruct entry.
    + by rewrite list_lookup_insert_ne in Hi.
  - eapply Hdel; [|done..].
    destruct (decide (j = i)) as [->|Hne].
    + by rewrite list_lookup_insert_eq in Hi by (by eapply lookup_lt_Some).
    + by rewrite list_lookup_insert_ne in Hi.
  - destruct (decide (j = i)) as [->|Hne].
    + rewrite list_lookup_insert_eq in Hi by (by eapply lookup_lt_Some).
      assert (info_j = info) as -> by congruence.
      assert (to_j = to_i) as -> by congruence.
      apply _download_file_done. congruence.
    + rewrite list_lookup_insert_ne in Hi by done.
      assert (loc_parts to_i ≠ loc_parts to_j) as Hdst.
      { intros Heq. apply Hne.
        assert (info = info_j) as -> by (by eapply member_to_info_inj).
        by eapply NoDup_lookup. }
      pose proof (_download_file_others self (uuids j) info_j to_j (world st)
                    (loc_parts to_i) Hbackend Hdst
                    (Hclash i j info info_j to_i to_j Hinfo Hinfo_j Hto Hto_j))
        as Hall.
      apply Forall_app in Hall as [_ Hfinal].
      rewrite Forall_singleton in Hfinal. rewrite Hfinal. by eapply Hdel.
Qed.
End PoolEffects.

Section PoolTransfers.
Context {Ext : Type} (self : BaseTree Ext).
Variable uuids : nat → string.
Variables from_info to_info : Location.
Variable from_infos : list Location.
Variable max_workers : nat.

#[local] Abbreviation step :=
  (pool_step self uuids from_info to_info from_infos max_workers).
#[local] Abbreviation run :=
  (pool_run self uuids from_info to_info from_infos max_workers).

Lemma transfers_snoc sched ev :
  transfers (sched ++ [ev]) = transfers sched ++ transfers [ev].
Proof. unfold transfers. apply omap_app. Qed.

(** The members a schedule has transferred are those whose future is
    finished, each once. *)
Lemma pool_run_transfers sched (w : World Ext) (st : Pool Ext) :
  run sched (pool_init max_workers w) = Some st →
  NoDup (transfers sched)
  ∧ ∀ i, i ∈ transfers sched ↔ ∃ r, futures st !! i = Some (Finished r).
Proof.
  revert st. induction sched as [|ev sched IH] using rev_ind; intros st Hrun.
  - cbn in Hrun. inversion Hrun; subst. split; [constructor|].
    intros i. split.
    + by intros ?%elem_of_nil.
    + intros [r Hr]. unfold pool_init in Hr. cbn in Hr. done.
  - apply pool_run_last in Hrun as (st1 & Hrun1 & Hstep).
    destruct (IH st1 Hrun1) as [Hnd Hiff].
    rewrite transfers_snoc.
    destruct (pool_step_shape _ _ _ _ _ _ _ _ _ Hstep)
      as [(_ & Hfs & -> & _)
         |[(_ & Hfs & -> & _)
          |[(exc & k & entry & _ & Hk & _ & Hfs & -> & _)
           |[(j & -> & Hj & _ & _ & _ & Hfs & _)
            |(j & info_j & to_j & -> & Hj & _ & _ & _ & Hfs & _)]]]];
      rewrite Hfs; cbn [transfers omap list_omap]; rewrite ?app_nil_r.
    + done.
    + split; [done|]. intros i. rewrite Hiff. split; intros [r Hr]; exists r.
      * by apply lookup_app_l_Some.
      * destruct (decide (i < length (futures st1))%nat).
        -- by rewrite lookup_app_l in Hr.
        -- apply lookup_lt_Some in Hr as Hlt. rewrite length_app in Hlt.
           cbn in Hlt. assert (i = length (futures st1)) as -> by lia.
           rewrite lookup_app_r, Nat.sub_diag in Hr by lia. done.
    + split; [done|]. intros i. rewrite Hiff.
      destruct (decide (k = i)) as [->|Hne].
      * rewrite list_lookup_insert_eq by (by eapply lookup_lt_Some).
        rewrite Hk. destruct entry as [| |r0|]; split; intros [r Hr];
          by try exists r.
      * by rewrite list_lookup_insert_ne.
    + split; [done|]. intros i. rewrite Hiff.
      destruct (decide (j = i)) as [->|Hne].
      * rewrite list_lookup_insert_eq by (by eapply lookup_lt_Some).
        rewrite Hj. split; intros [r Hr]; done.
      * by rewrite list_lookup_insert_ne.
    + split.
      * apply NoDup_app. split; [done|]. split; [|apply NoDup_singleton].
        intros i Hi ->%list_elem_of_singleton.
        apply Hiff in Hi as [r Hr]. congruence.
      * intros i. rewrite elem_of_app, list_elem_of_singleton, Hiff.
        destruct (decide (j = i)) as [->|Hne].
        -- rewrite list_lookup_insert_eq by (by eapply lookup_lt_Some).
           split; [intros _; by eexists|by right].
        -- rewrite list_lookup_insert_ne by done. split; [|by left].
           intros [?|?]; [done|by subst].
Qed.
End PoolTransfers.





(** X16: a directory download that returns without error has delivered the
    whole directory.  For members listed once each, lying below the
    directory, with no destination that is another member's temporary file,
    and a backend that writes only the file it is given: when
    [_download_dir] returns normally, every member's destination exists in
    the world it returns, whatever the interleaving of the transfers. *)
Theorem _download_dir_complete {Ext} (self : BaseTree Ext)
    (uuids : nat → string) (from_info to_info : Location)
    (jobs_ : option nat) (w : World Ext) (sched : list Event)
    (w' : World Ext) :
  let from_infos := walk_files self from_info w in
  let max_workers := max_workers_of self jobs_ in
  (0 < max_workers)%nat →
  Forall (fun info => is_Some (relative_to info from_info)) from_infos →
  NoDup from_infos →
  (∀ bd, _download self = Some bd → backend_writes_only_target bd) →
  no_tmp_clash uuids from_info to_info from_infos →
  _download_dir self uuids from_info to_info jobs_ sched w = Some (Ok tt, w') →
  ∀ info, info ∈ from_infos →
    ∃ to_i, member_to_info from_info to_info info = Some to_i
            ∧ is_Some (file_at w' (loc_parts to_i)).
Proof.
  intros from_infos max_workers Hworkers Hbelow Hnodup Hbackend Hclash Hdir
    info Hin.
  unfold _download_dir in Hdir. fold from_infos max_workers in Hdir.
  destruct (pool_run _ _ _ _ _ _ sched _) as [st|] eqn:Hrun; [|done].
  destruct (main st) as [| | | |r] eqn:Hmain; try done.
  inversion Hdir; subst. clear Hdir.
  assert (pool_inv (length from_infos) st) as Hinv.
  { eapply pool_run_inv; [exact Hworkers|exact Hbelow| |exact Hrun].
    by apply pool_init_inv. }
  unfold pool_inv in Hinv. rewrite Hmain in Hinv. destruct Hinv as [_ Hall].
  apply list_elem_of_lookup in Hin as [i Hi].
  destruct (member_to_info_below from_info to_info from_infos Hbelow i info Hi)
    as [to_i Hto].
  exists to_i. split; [done|].
  eapply (pool_run_keeps self uuids from_info to_info from_infos max_workers
            (fun st =>
               ∀ i info to_i,
                 futures st !! i = Some (Finished (Ok tt)) →
                 from_infos !! i = Some info →
                 member_to_info from_info to_info info = Some to_i →
                 is_Some (file_at (world st) (loc_parts to_i))));
    [| |exact Hrun|apply Hall; by eapply lookup_lt_Some|exact Hi|exact Hto].
  - intros ev st1 st2. by apply pool_delivered_step.
  - intros j info_j to_j Hj. unfold pool_init in Hj. cbn in Hj. done.
Qed.

(** X16 on the two-member directory and two workers: the second transfer
    finishes first, and both files are in place at the end. *)
Lemma _download_dir_complete_witness :
  match _download_dir (demo_tree true) (fun _ => "u") (demo_loc ["data"])
                      (local_loc ["out"]) (Some 2%nat) overlapping_schedule
                      demo_world with
  | Some (Ok _, w') =>
      is_Some (file_at w' ["out"; "a"]) ∧ is_Some (file_at w' ["out"; "b"])
  | _ => False
  end.
Proof.
  destruct (_download_dir (demo_tree true) (fun _ => "u") (demo_loc ["data"])
              (local_loc ["out"]) (Some 2%nat) overlapping_schedule
              demo_world) as [[[[]|e] w']|] eqn:Hdir;
    [|vm_compute in Hdir; discriminate..].
  assert (∀ info,
            info ∈ walk_files (demo_tree true) (demo_loc ["data"]) demo_world →
            ∃ to_i,
              member_to_info (demo_loc ["data"]) (local_loc ["out"]) info
              = Some to_i
              ∧ is_Some (file_at w' (loc_parts to_i))) as Hall.
  { apply (_download_dir_complete (demo_tree true) (fun _ => "u")
             (demo_loc ["data"]) (local_loc ["out"]) (Some 2%nat) demo_world
             overlapping_schedule w').
    - vm_compute. lia.
    - vm_compute. repeat constructor; by eexists.
    - apply (bool_decide_unpack _). by vm_compute.
    - intros bd [= <-]. exact demo_download_writes_only_target.
    - intros [|[|i]] [|[|j]] info_i info_j to_i to_j Hi Hj Hti Htj;
        vm_compute in Hi, Hj; try done;
        inversion Hi; inversion Hj; subst;
        vm_compute in Hti, Htj; inversion Hti; inversion Htj; subst;
        vm_compute; discriminate.
    - exact Hdir. }
  split.
  - destruct (Hall (demo_loc ["data"; "a"])) as (to_i & Hto & Hfile).
    + apply (bool_decide_unpack _). by vm_compute.
    + vm_compute in Hto. inversion Hto; subst. exact Hfile.
  - destruct (Hall (demo_loc ["data"; "b"])) as (to_i & Hto & Hfile).
    + apply (bool_decide_unpack _). by vm_compute.
    + vm_compute in Hto. inversion Hto; subst. exact Hfile.
Defined.

(** X17: no member is transferred twice.  In every run of the pool each
    member's worker finishes at most once; the members transferred so far
    are exactly those whose future is finished; and on a run on which
    [_download_dir] returns without error (at least one worker, members
    below the directory) every member was transferred exactly once. *)
Theorem _download_dir_transfers_once {Ext} (self : BaseTree Ext)
    (uuids : nat → string) (from_info to_info : Location)
    (jobs_ : option nat) (w : World Ext) (sched : list Event)
    (st : Pool Ext) :
  let from_infos := walk_files self from_info w in
  let max_workers := max_workers_of self jobs_ in
  pool_run self uuids from_info to_info from_infos max_workers sched
           (pool_init max_workers w) = Some st →
  NoDup (transfers sched)
  ∧ (∀ i, i ∈ transfers sched ↔ ∃ r, futures st !! i = Some (Finished r))
  ∧ ((0 < max_workers)%nat →
     Forall (fun info => is_Some (relative_to info from_info)) from_infos →
     main st = Returned (Ok tt) →
     transfers sched ≡ₚ seq 0 (length from_infos)).
Proof.
  intros from_infos max_workers Hrun.
  destruct (pool_run_transfers self uuids from_info to_info from_infos
              max_workers sched w st Hrun) as [Hnd Hiff].
  split; [done|]. split; [done|].
  intros Hworkers Hbelow Hmain.
  assert (pool_inv (length from_infos) st) as Hinv.
  { eapply pool_run_inv; [exact Hworkers|exact Hbelow| |exact Hrun].
    by apply pool_init_inv. }
  unfold pool_inv in Hinv. rewrite Hmain in Hinv. destruct Hinv as [Hlen Hall].
  apply NoDup_Permutation; [done|apply NoDup_seq|].
  intros i. rewrite Hiff, elem_of_seq. split.
  - intros [r Hr]. apply lookup_lt_Some in Hr. lia.
  - intros [_ Hi]. exists (Ok tt). apply Hall. lia.
Qed.

(** X17 on the two-member directory and two workers: the second member is
    transferred first, each of the two once. *)
Lemma _download_dir_transfers_once_witness :
  ∃ st,
    pool_run (demo_tree true) (fun _ => "u") (demo_loc ["data"])
             (local_loc ["out"])
             (walk_files (demo_tree true) (demo_loc ["data"]) demo_world)
             2 overlapping_schedule (pool_init 2 demo_world)
    = Some st
    ∧ transfers overlapping_schedule = [1; 0]%nat
    ∧ NoDup (transfers overlapping_schedule).
Proof.
  eexists. split; [vm_compute; reflexivity|]. split; [reflexivity|].
  refine (proj1 (_download_dir_transfers_once (demo_tree true) (fun _ => "u")
            (demo_loc ["data"]) (local_loc ["out"]) (Some 2%nat) demo_world
            overlapping_schedule _ _)).
  vm_compute. reflexivity.
Defined.


